(** * In-memory Thing / Channel repositories of the [mocks] package

    A shallow embedding of the mock repositories ([thingRepositoryMock],
    [channelRepositoryMock], [channelCacheMock]) together with the
    properties their specification states about them.

    Conventions

    - a Go [map[string]V] is a [gmap string V]; a [for ... range m] loop
      visits [range m], an enumeration of the map in an order the
      language leaves open (class [MapRange]);
    - a [uint64] is a [Z] kept in [0, 2^64) by [u64];
    - an [error] result is an [option error], [None] standing for [nil];
    - a method that mutates its receiver returns the new receiver;
    - a send on the [chan Connection] is recorded as an emitted event, the
      goroutine started by [NewThingRepository] is the function [consume]. *)

From Stdlib Require Import ZArith.
From stdpp Require Import gmap strings list fin_maps pretty sorting.

Local Open Scope string_scope.
Local Open Scope Z_scope.

(** ** Machine integers and formatting *)

Definition u64 (z : Z) : Z := z mod 2 ^ 64.

(** [strings.Repeat("0", n) + s]. *)
Fixpoint zeros (n : nat) (s : string) : string :=
  match n with
  | O => s
  | S n' => "0" +:+ zeros n' s
  end.

(** [fmt.Sprintf("%03d", n)] for an unsigned [n]: decimal, left-padded with
    zeros to a width of at least three. *)
Definition Sprintf_03d (n : Z) : string :=
  let s := pretty n in zeros (3 - String.length s)%nat s.

(** ** Errors ([pkg/errors]) *)

Inductive error : Set :=
  | ErrConflict
  | ErrNotFound
  | ErrAuthorization.

(** ** Iteration over a Go map *)

(** The order in which a loop meets the entries is any enumeration of the
    map. It is given here as a function of the map, whereas two loops
    over one map may meet it in two orders: the statements below hold
    for every order of every loop, none of them compares what two loops
    over the same map met first. *)

Class MapRange := {
  range : ∀ {A : Type}, gmap string A → list (string * A);
  range_perm : ∀ (A : Type) (m : gmap string A), range m ≡ₚ map_to_list m
}.

(** One admissible iteration order: the one of [map_to_list]. *)
#[export] Instance canonical_range : MapRange :=
  {| range := λ A m, map_to_list m; range_perm := λ A m, reflexivity _ |}.

(** ** Entities ([things] package) *)

Abbreviation Metadata := (option (gmap string string)).

Module Thing.
Record t : Type := mk {
  ID : string;
  GroupID : string;
  Name : string;
  Key : string;
  Metadata : Metadata
}.

(** The zero value [things.Thing{}]. *)
Definition zero : t := mk "" "" "" "" None.

Definition with_ID (id : string) (th : t) : t :=
  mk id (GroupID th) (Name th) (Key th) (Metadata th).

Definition with_Key (k : string) (th : t) : t :=
  mk (ID th) (GroupID th) (Name th) k (Metadata th).
End Thing.

Module Channel.
Record t : Type := mk {
  ID : string;
  GroupID : string;
  Name : string;
  Metadata : Metadata
}.

Definition zero : t := mk "" "" "" None.

Definition with_ID (id : string) (ch : t) : t :=
  mk id (GroupID ch) (Name ch) (Metadata ch).
End Channel.

(** [things.PageMetadata]. The repositories read [Offset], [Limit] and
    [Name] and write [Total]; [Order] and [Dir] are the sort specification
    handed on to the sorting helpers. *)
Record PageMetadata : Type := mkPageMetadata {
  Total : Z;
  Offset : Z;
  Limit : Z;
  Name : string;
  Order : string;
  Dir : string
}.

Definition PageMetadata_zero : PageMetadata := mkPageMetadata 0 0 0 "" "" "".

Record ThingsPage : Type := mkThingsPage {
  ThingsPage_meta : PageMetadata;
  Things : list Thing.t
}.

Record ChannelsPage : Type := mkChannelsPage {
  ChannelsPage_meta : PageMetadata;
  Channels : list Channel.t
}.

(** [mocks.Connection]: the event carried by the channel between the two
    repositories. *)
Record Connection : Type := mkConnection {
  chanID : string;
  thing : Thing.t;
  connected : bool
}.

(** ** Windows over an enumeration *)

(** The loop of the two [RetrieveByAdmin]: [i] counts the entries met so
    far, and an entry is kept when [i >= offset && i < offset + limit],
    the sum being a [uint64]. *)
Fixpoint admin_window {A : Type} (offset limit i : Z) (l : list A) : list A :=
  match l with
  | [] => []
  | x :: l' =>
      let rest := admin_window offset limit (u64 (i + 1)) l' in
      if (offset <=? i) && (i <? u64 (offset + limit)) then x :: rest else rest
  end.

(** ** The Thing repository *)

Module ThingRepo.
Section WithRange.
Context `{MapRange}.

Record thingRepositoryMock : Type := mk {
  counter : Z;
  tconns : gmap string (gmap string Thing.t);
  things : gmap string Thing.t
}.

(** [NewThingRepository]: both maps empty, the counter at zero. *)
Definition NewThingRepository : thingRepositoryMock := mk 0 ∅ ∅.

Definition set_things (m : gmap string Thing.t) (trm : thingRepositoryMock) :=
  mk (counter trm) (tconns trm) m.

Definition set_tconns (m : gmap string (gmap string Thing.t))
    (trm : thingRepositoryMock) :=
  mk (counter trm) m (things trm).

(** The scan [for _, th := range trm.things { if th.Key == k { ... } }]:
    the first Thing met whose key is [k]. *)
Definition scan_key (m : gmap string Thing.t) (k : string) : option Thing.t :=
  snd <$> List.find (λ e, bool_decide (Thing.Key (snd e) = k)) (range m).

(** One iteration of the loop of [Save]. *)
Definition Save_one (trm : thingRepositoryMock) (th : Thing.t)
    : thingRepositoryMock * Thing.t + error :=
  match scan_key (things trm) (Thing.Key th) with
  | Some _ => inr ErrConflict
  | None =>
      let c := u64 (counter trm + 1) in
      let th' := if decide (Thing.ID th = "")
                 then Thing.with_ID (Sprintf_03d c) th else th in
      inl (mk c (tconns trm) (<[Thing.ID th' := th']> (things trm)), th')
  end.

(** [Save]: the repository afterwards, the returned slice and the error.
    Entries stored before a failing one stay in the map. *)
Fixpoint Save (trm : thingRepositoryMock) (ths : list Thing.t)
    : thingRepositoryMock * (list Thing.t * option error) :=
  match ths with
  | [] => (trm, ([], None))
  | th :: rest =>
      match Save_one trm th with
      | inr e => (trm, ([], Some e))
      | inl (trm1, th') =>
          let '(trm2, (out, err)) := Save trm1 rest in
          (trm2, (match err with None => th' :: out | Some _ => [] end, err))
      end
  end.

Definition Update (trm : thingRepositoryMock) (thing : Thing.t)
    : thingRepositoryMock * option error :=
  match things trm !! Thing.ID thing with
  | None => (trm, Some ErrNotFound)
  | Some _ => (set_things (<[Thing.ID thing := thing]> (things trm)) trm, None)
  end.

Definition UpdateKey (trm : thingRepositoryMock) (id val : string)
    : thingRepositoryMock * option error :=
  match scan_key (things trm) val with
  | Some _ => (trm, Some ErrConflict)
  | None =>
      match things trm !! id with
      | None => (trm, Some ErrNotFound)
      | Some th =>
          (set_things (<[id := Thing.with_Key val th]> (things trm)) trm, None)
      end
  end.

Definition RetrieveByID (trm : thingRepositoryMock) (id : string)
    : Thing.t * option error :=
  match List.find (λ e, bool_decide (Thing.ID (snd e) = id)) (range (things trm)) with
  | Some e => (snd e, None)
  | None => (Thing.zero, Some ErrNotFound)
  end.

Definition RetrieveByKey (trm : thingRepositoryMock) (key : string)
    : string * option error :=
  match scan_key (things trm) key with
  | Some th => (Thing.ID th, None)
  | None => ("", Some ErrNotFound)
  end.

Fixpoint Remove (trm : thingRepositoryMock) (ids : list string)
    : thingRepositoryMock * option error :=
  match ids with
  | [] => (trm, None)
  | id :: rest =>
      match things trm !! id with
      | None => (trm, Some ErrNotFound)
      | Some _ => Remove (set_things (delete id (things trm)) trm) rest
      end
  end.

Definition connect (trm : thingRepositoryMock) (conn : Connection)
    : thingRepositoryMock :=
  let inner := default ∅ (tconns trm !! chanID conn) in
  set_tconns (<[chanID conn := <[Thing.ID (thing conn) := thing conn]> inner]>
                (tconns trm)) trm.

Definition disconnect (trm : thingRepositoryMock) (conn : Connection)
    : thingRepositoryMock :=
  if decide (Thing.ID (thing conn) = "")
  then set_tconns (delete (chanID conn) (tconns trm)) trm
  else
    (* [delete] on the inner map, shared with the outer one; on a
       missing (nil) inner map it does nothing *)
    set_tconns (alter (delete (Thing.ID (thing conn))) (chanID conn)
                  (tconns trm)) trm.

Definition RetrieveAll (trm : thingRepositoryMock)
    : list Thing.t * option error :=
  (snd <$> range (things trm), None).

Definition RetrieveByAdmin (trm : thingRepositoryMock) (pm : PageMetadata)
    : ThingsPage * option error :=
  let ths := admin_window (Offset pm) (Limit pm) 0 (snd <$> range (things trm)) in
  (mkThingsPage (mkPageMetadata (counter trm) (Offset pm) (Limit pm) "" "" "") ths,
   None).

(** The body of the goroutine of [NewThingRepository], for one event. *)
Definition consume (trm : thingRepositoryMock) (conn : Connection)
    : thingRepositoryMock :=
  if connected conn then connect trm conn else disconnect trm conn.

End WithRange.

(** [RetrieveByGroupIDs] calls two functions of the repository that live in
  other files: [uuid.ParseID], which reads the ordinal out of an
  identifier, and [sortThings], which orders the page. Both are
  parameters here. *)
Section Paging.
Context `{MapRange}.
Variable ParseID : string → Z.
Variable sortThings : PageMetadata → list Thing.t → list Thing.t.

(** [id >= first && id < last]. *)
Definition in_window (first last id : Z) : bool :=
  (first <=? id)%Z && (id <? last)%Z.

(** The inner loop over [trm.things] for one group identifier. *)
Definition group_window (m : gmap string Thing.t) (first last : Z)
    (grID : string) : list Thing.t :=
  List.filter
    (λ v, bool_decide (Thing.GroupID v = grID)
          && in_window first last (ParseID (Thing.ID v)))
    (snd <$> range m).

Definition name_filter (name : string) (items : list Thing.t) : list Thing.t :=
  if decide (name = "") then items
  else List.filter (λ v, bool_decide (Thing.Name v = name)) items.

Definition RetrieveByGroupIDs (trm : thingRepositoryMock)
    (groupIDs : list string) (pm : PageMetadata) : ThingsPage * option error :=
  if Limit pm =? 0 then (mkThingsPage PageMetadata_zero [], None)
  else
    let first := u64 (Offset pm + 1) in
    let last := u64 (first + Limit pm) in
    let items := groupIDs ≫= group_window (things trm) first last in
    let items := name_filter (Name pm) items in
    let items := sortThings pm items in
    (mkThingsPage (mkPageMetadata (counter trm) (Offset pm) (Limit pm) "" "" "") items,
     None).

(** [RetrieveByChannel]: the Things recorded against the Channel in the
    thing-side index; ranging over the entry of a Channel that has none
    (a nil map) visits nothing. *)
Definition RetrieveByChannel (trm : thingRepositoryMock) (chID : string)
    (pm : PageMetadata) : ThingsPage * option error :=
  if Limit pm <? 0 then (mkThingsPage PageMetadata_zero [], None)
  else
    let first := u64 (Offset pm + 1) in
    let last := u64 (first + Limit pm) in
    let ths :=
      List.filter
        (λ co, in_window first last (ParseID (Thing.ID co)) || (Limit pm =? 0))
        (snd <$> range (default ∅ (tconns trm !! chID))) in
    let ths := sortThings pm ths in
    (mkThingsPage (mkPageMetadata (counter trm) (Offset pm) (Limit pm) "" "" "") ths,
     None).
End Paging.

(** Sequences of calls on the Things table: the four calls that write the
    table, and the events its goroutine receives in between. *)
Section Runs.
Context `{MapRange}.

Inductive call : Type :=
  | CallSave (ths : list Thing.t)
  | CallUpdate (thing : Thing.t)
  | CallUpdateKey (id val : string)
  | CallRemove (ids : list string)
  | Received (conn : Connection).

Definition step (trm : thingRepositoryMock) (c : call) : thingRepositoryMock :=
  match c with
  | CallSave ths => fst (Save trm ths)
  | CallUpdate th => fst (Update trm th)
  | CallUpdateKey id val => fst (UpdateKey trm id val)
  | CallRemove ids => fst (Remove trm ids)
  | Received conn => consume trm conn
  end.

Definition run (cs : list call) : thingRepositoryMock :=
  foldl step NewThingRepository cs.

Definition reachable (trm : thingRepositoryMock) : Prop :=
  ∃ cs, trm = run cs.

(** No two stored Things share an access key. *)
Definition keys_unique (m : gmap string Thing.t) : Prop :=
  ∀ i j a b, m !! i = Some a → m !! j = Some b →
    Thing.Key a = Thing.Key b → i = j.

(** Every Thing is stored under its own identifier. *)
Definition keyed_by_ID (m : gmap string Thing.t) : Prop :=
  ∀ i th, m !! i = Some th → Thing.ID th = i.

(** A sequence of calls none of which is an [Update]. *)
Definition without_Update (cs : list call) : Prop :=
  ∀ th, CallUpdate th ∉ cs.
End Runs.
End ThingRepo.

(** ** The Channel repository *)

Module ChannelRepo.
Section WithRange.
Context `{MapRange}.

(** The receiver without its two references: [things], the Thing
    repository, is an argument of the methods that call it, and what is
    sent on [tconns] is returned as a list of events. *)
Record channelRepositoryMock : Type := mk {
  counter : Z;
  channels : gmap string Channel.t;
  cconns : gmap string (gmap string Channel.t)
}.

Definition NewChannelRepository : channelRepositoryMock := mk 0 ∅ ∅.

Definition set_cconns (m : gmap string (gmap string Channel.t))
    (crm : channelRepositoryMock) :=
  mk (counter crm) (channels crm) m.

Definition Save_one (crm : channelRepositoryMock) (ch : Channel.t)
    : channelRepositoryMock * Channel.t :=
  let c := u64 (counter crm + 1) in
  let ch' := if decide (Channel.ID ch = "")
             then Channel.with_ID (Sprintf_03d c) ch else ch in
  (mk c (<[Channel.ID ch' := ch']> (channels crm)) (cconns crm), ch').

Fixpoint Save (crm : channelRepositoryMock) (chs : list Channel.t)
    : channelRepositoryMock * (list Channel.t * option error) :=
  match chs with
  | [] => (crm, ([], None))
  | ch :: rest =>
      let '(crm1, ch') := Save_one crm ch in
      let '(crm2, (out, err)) := Save crm1 rest in
      (crm2, (ch' :: out, err))
  end.

Definition RetrieveByID (crm : channelRepositoryMock) (id : string)
    : Channel.t * option error :=
  match List.find (λ e, bool_decide (Channel.ID (snd e) = id))
          (range (channels crm)) with
  | Some e => (snd e, None)
  | None => (Channel.zero, Some ErrNotFound)
  end.

Definition Update (crm : channelRepositoryMock) (channel : Channel.t)
    : channelRepositoryMock * option error :=
  match channels crm !! Channel.ID channel with
  | None => (crm, Some ErrNotFound)
  | Some _ =>
      (mk (counter crm) (<[Channel.ID channel := channel]> (channels crm))
          (cconns crm), None)
  end.

Definition RetrieveByAdmin (crm : channelRepositoryMock) (pm : PageMetadata)
    : ChannelsPage * option error :=
  if Limit pm <? 0 then (mkChannelsPage PageMetadata_zero [], None)
  else
    let chs := admin_window (Offset pm) (Limit pm) 0
                 (snd <$> range (channels crm)) in
    (mkChannelsPage (mkPageMetadata (counter crm) (Offset pm) (Limit pm) "" "" "") chs,
     None).

(** [RetrieveByThing]: the first Channel of the table whose identifier is
    that of a Channel recorded against the Thing. *)
Definition RetrieveByThing (crm : channelRepositoryMock) (thID : string)
    : Channel.t * option error :=
  let recorded (ch : Channel.t) : bool :=
    existsb (λ co, bool_decide (Channel.ID ch = Channel.ID co))
      (snd <$> range (default ∅ (cconns crm !! thID))) in
  match List.find (λ e, recorded (snd e)) (range (channels crm)) with
  | Some e => (snd e, None)
  | None => (Channel.zero, Some ErrNotFound)
  end.

Definition RetrieveAll (crm : channelRepositoryMock)
    : list Channel.t * option error :=
  (snd <$> range (channels crm), None).

(** [Remove]: the repository afterwards, the events sent and the error. *)
Fixpoint Remove (crm : channelRepositoryMock) (ids : list string)
    : channelRepositoryMock * list Connection * option error :=
  match ids with
  | [] => (crm, [], None)
  | id :: rest =>
      match channels crm !! id with
      | None => (crm, [], Some ErrNotFound)
      | Some _ =>
          let crm1 := mk (counter crm) (delete id (channels crm))
                        (delete id <$> cconns crm) in
          let '(crm2, evs, err) := Remove crm1 rest in
          (crm2, mkConnection id Thing.zero false :: evs, err)
      end
  end.

(** The loop of [Connect], [ch] being the Channel resolved before it. *)
Fixpoint Connect_loop (trm : ThingRepo.thingRepositoryMock)
    (crm : channelRepositoryMock) (chID : string) (ch : Channel.t)
    (thIDs : list string)
    : channelRepositoryMock * list Connection * option error :=
  match thIDs with
  | [] => (crm, [], None)
  | thID :: rest =>
      match cconns crm !! thID with
      | Some _ => (crm, [], Some ErrConflict)
      | None =>
          match ThingRepo.RetrieveByID trm thID with
          | (_, Some e) => (crm, [], Some e)
          | (th, None) =>
              let inner := default ∅ (cconns crm !! thID) in
              let crm1 := set_cconns (<[thID := <[chID := ch]> inner]> (cconns crm)) crm in
              let '(crm2, evs, err) := Connect_loop trm crm1 chID ch rest in
              (crm2, mkConnection chID th true :: evs, err)
          end
      end
  end.

Definition Connect (trm : ThingRepo.thingRepositoryMock)
    (crm : channelRepositoryMock) (chID : string) (thIDs : list string)
    : channelRepositoryMock * list Connection * option error :=
  match RetrieveByID crm chID with
  | (_, Some e) => (crm, [], Some e)
  | (ch, None) => Connect_loop trm crm chID ch thIDs
  end.

Fixpoint Disconnect (crm : channelRepositoryMock) (chID : string)
    (thIDs : list string)
    : channelRepositoryMock * list Connection * option error :=
  match thIDs with
  | [] => (crm, [], None)
  | thID :: rest =>
      match cconns crm !! thID with
      | None => (crm, [], Some ErrNotFound)
      | Some chans =>
          match chans !! chID with
          | None => (crm, [], Some ErrNotFound)
          | Some _ =>
              let crm1 := set_cconns (<[thID := delete chID chans]> (cconns crm)) crm in
              let '(crm2, evs, err) := Disconnect crm1 chID rest in
              (crm2, mkConnection chID (Thing.with_ID thID Thing.zero) false :: evs, err)
          end
      end
  end.

Definition HasThingByID (crm : channelRepositoryMock) (chanID thingID : string)
    : option error :=
  match cconns crm !! thingID with
  | None => Some ErrAuthorization
  | Some chans =>
      match chans !! chanID with
      | None => Some ErrAuthorization
      | Some _ => None
      end
  end.

(** [things.Connection], the pair returned by [RetrieveConnByThingKey]. *)
Record ConnectionIDs : Type := mkConnectionIDs {
  ThingID : string;
  ChannelID : string
}.

Definition RetrieveConnByThingKey (trm : ThingRepo.thingRepositoryMock)
    (crm : channelRepositoryMock) (token : string)
    : ConnectionIDs * option error :=
  match ThingRepo.RetrieveByKey trm token with
  | (_, Some e) => (mkConnectionIDs "" "", Some e)
  | (tid, None) =>
      match cconns crm !! tid with
      | None => (mkConnectionIDs "" "", Some ErrAuthorization)
      | Some chans =>
          if decide (size chans = 0%nat)
          then (mkConnectionIDs "" "", Some ErrAuthorization)
          else match range chans with
               | (_, v) :: _ => (mkConnectionIDs tid (Channel.ID v), None)
               | [] => (mkConnectionIDs "" "", Some ErrNotFound)
               end
      end
  end.

(** [RetrieveAllConnections]: one pair for every Channel recorded against
    every Thing of the index. *)
Definition RetrieveAllConnections (crm : channelRepositoryMock)
    : list ConnectionIDs * option error :=
  (range (cconns crm) ≫=
     (λ e, (λ v, mkConnectionIDs (fst e) (Channel.ID v)) <$> (snd <$> range (snd e))),
   None).
End WithRange.

Section Paging.
Context `{MapRange}.
Variable ParseID : string → Z.
Variable sortChannels : PageMetadata → list Channel.t → list Channel.t.

Definition group_window (m : gmap string Channel.t) (first last : Z)
    (grID : string) : list Channel.t :=
  List.filter
    (λ v, bool_decide (Channel.GroupID v = grID)
          && ThingRepo.in_window first last (ParseID (Channel.ID v)))
    (snd <$> range m).

Definition name_filter (name : string) (items : list Channel.t)
    : list Channel.t :=
  if decide (name = "") then items
  else List.filter (λ v, bool_decide (Channel.Name v = name)) items.

Definition RetrieveByGroupIDs (crm : channelRepositoryMock)
    (groupIDs : list string) (pm : PageMetadata)
    : ChannelsPage * option error :=
  if Limit pm =? 0 then (mkChannelsPage PageMetadata_zero [], None)
  else
    let first := u64 (Offset pm + 1) in
    let last := u64 (first + Limit pm) in
    let items := groupIDs ≫= group_window (channels crm) first last in
    let items := name_filter (Name pm) items in
    let items := sortChannels pm items in
    (mkChannelsPage (mkPageMetadata (counter crm) (Offset pm) (Limit pm) "" "" "") items,
     None).
End Paging.
End ChannelRepo.

(** ** The two repositories and the channel between them *)

(** The Thing repository, the Channel repository that holds a reference to
    it, and the [chan Connection] they share: what was sent and is not
    received yet, oldest first. Callers come one at a time; the goroutine
    of [NewThingRepository] receives in between, at any moment, which is
    the action [Receive] (it writes [tconns] only, which no call of the
    Channel repository reads). *)
Module System.
Section WithRange.
Context `{MapRange}.

Record system : Type := mk {
  trepo : ThingRepo.thingRepositoryMock;
  crepo : ChannelRepo.channelRepositoryMock;
  bridge : list Connection
}.

(** [NewThingRepository(conns)] and [NewChannelRepository(repo, conns)]. *)
Definition init : system :=
  mk ThingRepo.NewThingRepository ChannelRepo.NewChannelRepository [].

Inductive action : Type :=
  | ThingSave (ths : list Thing.t)
  | ThingUpdate (thing : Thing.t)
  | ThingUpdateKey (id val : string)
  | ThingRemove (ids : list string)
  | ChannelSave (chs : list Channel.t)
  | ChannelUpdate (channel : Channel.t)
  | ChannelRemove (ids : list string)
  | Connect (chID : string) (thIDs : list string)
  | Disconnect (chID : string) (thIDs : list string)
  | Receive.

Definition with_trepo (trm : ThingRepo.thingRepositoryMock) (s : system) :=
  mk trm (crepo s) (bridge s).

(** The Channel repository after a call, and what the call sent. *)
Definition with_crepo (crm : ChannelRepo.channelRepositoryMock)
    (sent : list Connection) (s : system) :=
  mk (trepo s) crm (bridge s ++ sent).

Definition step (s : system) (a : action) : system :=
  match a with
  | ThingSave ths => with_trepo (fst (ThingRepo.Save (trepo s) ths)) s
  | ThingUpdate th => with_trepo (fst (ThingRepo.Update (trepo s) th)) s
  | ThingUpdateKey id val =>
      with_trepo (fst (ThingRepo.UpdateKey (trepo s) id val)) s
  | ThingRemove ids => with_trepo (fst (ThingRepo.Remove (trepo s) ids)) s
  | ChannelSave chs => with_crepo (fst (ChannelRepo.Save (crepo s) chs)) [] s
  | ChannelUpdate ch => with_crepo (fst (ChannelRepo.Update (crepo s) ch)) [] s
  | ChannelRemove ids =>
      let r := ChannelRepo.Remove (crepo s) ids in
      with_crepo (fst (fst r)) (snd (fst r)) s
  | Connect chID thIDs =>
      let r := ChannelRepo.Connect (trepo s) (crepo s) chID thIDs in
      with_crepo (fst (fst r)) (snd (fst r)) s
  | Disconnect chID thIDs =>
      let r := ChannelRepo.Disconnect (crepo s) chID thIDs in
      with_crepo (fst (fst r)) (snd (fst r)) s
  | Receive =>
      match bridge s with
      | [] => s
      | conn :: rest => mk (ThingRepo.consume (trepo s) conn) (crepo s) rest
      end
  end.

Definition run (acts : list action) : system := foldl step init acts.

Definition reachable (s : system) : Prop := ∃ acts, s = run acts.

(** The pair of the Thing [thID] and the Channel [chID] is recorded in the
    channel-side index, and in the thing-side index. *)
Definition in_cconns (crm : ChannelRepo.channelRepositoryMock)
    (chID thID : string) : Prop :=
  ∃ chans ch, ChannelRepo.cconns crm !! thID = Some chans
              ∧ chans !! chID = Some ch.

Definition in_tconns (trm : ThingRepo.thingRepositoryMock)
    (chID thID : string) : Prop :=
  ∃ ths th, ThingRepo.tconns trm !! chID = Some ths ∧ ths !! thID = Some th.

(** The Thing stored under [thID] holds the access key [key]. *)
Definition holds_key (trm : ThingRepo.thingRepositoryMock)
    (key thID : string) : Prop :=
  ∃ th, ThingRepo.things trm !! thID = Some th ∧ Thing.Key th = key.

(** The Thing repository once everything that was sent is received. *)
Definition drained (s : system) : ThingRepo.thingRepositoryMock :=
  foldl ThingRepo.consume (trepo s) (bridge s).

(** What the calls keep true of the table of Things [ths], the Channel
    repository [crm] and the Thing repository [received] as it will be
    once every pending event is received. *)
Record invariant (ths : gmap string Thing.t)
    (crm : ChannelRepo.channelRepositoryMock)
    (received : ThingRepo.thingRepositoryMock) : Prop := mk_invariant {
  things_keyed : ThingRepo.keyed_by_ID ths;
  things_named : ths !! "" = None;
  channels_keyed :
    ∀ i c, ChannelRepo.channels crm !! i = Some c → Channel.ID c = i;
  cconns_named : ChannelRepo.cconns crm !! "" = None;
  one_channel :
    ∀ t chans k1 k2 c1 c2,
      ChannelRepo.cconns crm !! t = Some chans →
      chans !! k1 = Some c1 → chans !! k2 = Some c2 → k1 = k2;
  recorded_stored :
    ∀ t chans k c,
      ChannelRepo.cconns crm !! t = Some chans → chans !! k = Some c →
      Channel.ID c = k ∧ is_Some (ChannelRepo.channels crm !! k);
  indexes_agree : ∀ ch t, in_cconns crm ch t ↔ in_tconns received ch t
}.

Definition consistent (s : system) : Prop :=
  invariant (ThingRepo.things (trepo s)) (crepo s) (drained s).
End WithRange.
End System.

(** ** The Channel cache *)

Module ChannelCache.
Record channelCacheMock : Type := mk {
  channels : gmap string string
}.

Definition NewChannelCache : channelCacheMock := mk ∅.

Definition Connect (ccm : channelCacheMock) (chanID thingID : string)
    : channelCacheMock * option error :=
  (mk (<[chanID := thingID]> (channels ccm)), None).

(** [ccm.channels[chanID] == thingID]: a missing key reads as [""]. *)
Definition HasThing (ccm : channelCacheMock) (chanID thingID : string) : bool :=
  bool_decide (default "" (channels ccm !! chanID) = thingID).

Definition Disconnect (ccm : channelCacheMock) (chanID thingID : string)
    : channelCacheMock * option error :=
  (mk (delete chanID (channels ccm)), None).

Definition Remove (ccm : channelCacheMock) (chanID : string)
    : channelCacheMock * option error :=
  (mk (delete chanID (channels ccm)), None).
End ChannelCache.

(** ** The helpers of other files, after the specification *)

Module SpecModel.
Definition digit_of (c : Ascii.ascii) : option Z :=
  let n := Z.of_nat (Ascii.nat_of_ascii c) in
  if (48 <=? n) && (n <=? 57) then Some (n - 48) else None.

(** The number written by the trailing run of decimal digits of [s],
    [acc] being the value read so far. *)
Fixpoint suffix_value (acc : Z) (s : string) : Z :=
  match s with
  | EmptyString => acc
  | String c s' =>
      match digit_of c with
      | Some d => suffix_value (10 * acc + d) s'
      | None => suffix_value 0 s'
      end
  end.

(** Modelled from the spec: [uuid.ParseID] is not among the files at hand;
    the specification says that identifiers are treated as having a
    numeric ordinal embedded in them, the numeric suffix of the
    identifier, [007] giving 7. *)
Definition ParseID (id : string) : Z := u64 (suffix_value 0 id).

Definition by_field (order : string) (name id : string) : string :=
  if decide (order = "name") then name else id.

(** The order on two records given by their [Name] and [ID]: the field
    named by [order] first, then the identifier. *)
Definition before (order : string) (n1 i1 n2 i2 : string) : bool :=
  match String.compare (by_field order n1 i1) (by_field order n2 i2) with
  | Lt => true
  | Gt => false
  | Eq => String.leb i1 i2
  end.

Definition supported (order : string) : bool :=
  bool_decide (order = "name") || bool_decide (order = "id").

(** Modelled from the spec: [sortThings] is not among the files at hand;
    the specification orders the page by the field named in the sort
    specification, ascending unless the reverse is requested, with the
    identifier as a tie-break, and leaves the input order for a field
    that is not supported. *)
Definition sortThings (pm : PageMetadata) (ths : list Thing.t) : list Thing.t :=
  if supported (Order pm) then
    let sorted :=
      merge_sort (λ a b, before (Order pm) (Thing.Name a) (Thing.ID a)
                                           (Thing.Name b) (Thing.ID b)) ths in
    if decide (Dir pm = "desc") then reverse sorted else sorted
  else ths.

(** Modelled from the spec: [sortChannels], as [sortThings]. *)
Definition sortChannels (pm : PageMetadata) (chs : list Channel.t)
    : list Channel.t :=
  if supported (Order pm) then
    let sorted :=
      merge_sort (λ a b, before (Order pm) (Channel.Name a) (Channel.ID a)
                                           (Channel.Name b) (Channel.ID b)) chs in
    if decide (Dir pm = "desc") then reverse sorted else sorted
  else chs.
End SpecModel.

(** ** Batches of deletions *)

(** The map after [delete(m, id)] for every [id] of [ids], in order. *)
Definition delete_all {A : Type} (ids : list string) (m : gmap string A)
    : gmap string A :=
  foldl (λ acc id, delete id acc) m ids.

(** Every identifier of [ids] is found when its turn comes, that is in the
    map left by the deletions before it. *)
Definition found_in_turn {A : Type} (m : gmap string A) (ids : list string)
    : Prop :=
  ∀ j id, ids !! j = Some id → is_Some (delete_all (take j ids) m !! id).

(** ** What the connection indexes record *)

(** No Thing of the channel-side index has [id] among its Channels. *)
Definition stripped (id : string) (m : gmap string (gmap string Channel.t))
    : Prop :=
  ∀ thk chans, m !! thk = Some chans → chans !! id = None.

(** Some Channel is recorded against the Thing [thID]. *)
Definition has_channel (m : gmap string (gmap string Channel.t))
    (thID : string) : Prop :=
  ∃ chans chID ch, m !! thID = Some chans ∧ chans !! chID = Some ch.

(** The event [Remove] sends for the Channel [id]: no Thing, not connected. *)
Definition removal_event (id : string) : Connection :=
  mkConnection id Thing.zero false.

(** ** Concrete repositories used in the examples below *)

Module Examples.
Import ThingRepo.

Definition keyed (k : string) : Thing.t := Thing.mk "" "" "" k None.

(** Two Things that carry the same access key and no identifier. *)
Definition twins : list Thing.t := [keyed "k"; keyed "k"].

(** Save two Things with distinct keys, then update the second one with
    a record that carries the key of the first. *)
Definition clash : list call :=
  [CallSave [keyed "a"; keyed "b"];
   CallUpdate (Thing.mk "002" "" "" "a" None)].

(** A table with one Thing, stored as [001] with key [a]. *)
Definition one_thing : thingRepositoryMock := run [CallSave [keyed "a"]].

(** A table with the Things [001], [002] and [003] of group [g]. *)
Definition grouped (k : string) : Thing.t := Thing.mk "" "g" "" k None.
Definition three_things : thingRepositoryMock :=
  run [CallSave [grouped "a"; grouped "b"; grouped "c"]].

Definition page (offset limit : Z) : PageMetadata :=
  mkPageMetadata 0 offset limit "" "" "".

Definition one_channel : ChannelRepo.channelRepositoryMock :=
  fst (ChannelRepo.Save ChannelRepo.NewChannelRepository
         [Channel.mk "" "g" "" None]).

(** The Thing [001] connected to the Channel [001]. *)
Definition connected_once : ChannelRepo.channelRepositoryMock :=
  fst (fst (ChannelRepo.Connect one_thing one_channel "001" ["001"])).

(** The two repositories after a Thing and a Channel were saved and
    connected, and the event of the connection was received. *)
Definition linked : System.system :=
  System.run [System.ThingSave [keyed "a"];
              System.ChannelSave [Channel.mk "" "g" "" None];
              System.Connect "001" ["001"];
              System.Receive].

(** The same with a Thing that comes with the identifier [x]. *)
Definition linked_unnumbered : System.system :=
  System.run [System.ThingSave [Thing.mk "x" "" "" "a" None];
              System.ChannelSave [Channel.mk "" "g" "" None];
              System.Connect "001" ["x"];
              System.Receive].
End Examples.

(** * Properties *)

(** ** Searching a list and enumerating a map *)

Section FindFacts.
Context {A : Type} (f : A → bool).

Lemma find_None_iff (l : list A) :
  List.find f l = None ↔ ∀ x, x ∈ l → f x = false.
Proof.
  induction l as [|a l IH]; simpl.
  - split; [intros _ x Hx; inversion Hx | done].
  - destruct (f a) eqn:Hfa.
    + split; [done | intros Hall]. specialize (Hall a (list_elem_of_here _ _)).
      congruence.
    + rewrite IH. split.
      * intros Hall x [->|Hx]%elem_of_cons; auto.
      * intros Hall x Hx. apply Hall. by right.
Qed.

Lemma find_Some_elem (l : list A) (x : A) :
  List.find f l = Some x → x ∈ l ∧ f x = true.
Proof.
  induction l as [|a l IH]; simpl; [done |].
  destruct (f a) eqn:Hfa.
  - intros [= <-]. split; [left | done].
  - intros [Hx Hf]%IH. split; [by right | done].
Qed.

Lemma find_is_Some (l : list A) (x : A) :
  x ∈ l → f x = true → is_Some (List.find f l).
Proof.
  intros Hx Hf. destruct (List.find f l) eqn:E; [by eexists |].
  rewrite find_None_iff in E. specialize (E x Hx). congruence.
Qed.
End FindFacts.

Section RangeFacts.
Context `{MapRange}.

Lemma elem_of_range {A : Type} (m : gmap string A) (i : string) (x : A) :
  (i, x) ∈ range m ↔ m !! i = Some x.
Proof. rewrite range_perm. apply elem_of_map_to_list. Qed.

Lemma elem_of_range_values {A : Type} (m : gmap string A) (x : A) :
  x ∈ snd <$> range m ↔ ∃ i, m !! i = Some x.
Proof.
  rewrite list_elem_of_fmap. split.
  - intros [[i y] [-> Hin]]. exists i. by apply elem_of_range.
  - intros [i Hi]. exists (i, x). split; [done | by apply elem_of_range].
Qed.
End RangeFacts.

(** ** Batches of deletions *)

Lemma lookup_delete_all {A : Type} (ids : list string) (m : gmap string A)
    (x : string) :
  delete_all ids m !! x = if decide (x ∈ ids) then None else m !! x.
Proof.
  unfold delete_all. revert m.
  induction ids as [|id ids IH]; intros m.
  - done.
  - cbn [foldl]. rewrite IH. destruct (decide (x = id)) as [->|Hne].
    + rewrite lookup_delete_eq.
      rewrite (decide_True (P := id ∈ id :: ids)) by left.
      by destruct (decide (id ∈ ids)).
    + rewrite lookup_delete_ne by done.
      destruct (decide (x ∈ ids)) as [Hin|Hin],
        (decide (x ∈ id :: ids)) as [Hin'|Hin']; try done.
      * destruct Hin'. by right.
      * by apply elem_of_cons in Hin' as [?|?].
Qed.

Lemma found_in_turn_cons {A : Type} (m : gmap string A) (id : string)
    (ids : list string) :
  found_in_turn m (id :: ids) ↔
  is_Some (m !! id) ∧ found_in_turn (delete id m) ids.
Proof.
  split.
  - intros Hf. split.
    + apply (Hf 0%nat id eq_refl).
    + intros j x Hj. apply (Hf (S j) x Hj).
  - intros [Hid Hf] [|j] x Hj.
    + by injection Hj as <-.
    + apply (Hf j x Hj).
Qed.

(** A batch is found in turn as a whole, or has a first identifier that is
    missing in its turn. *)
Lemma found_in_turn_or_first_missing {A : Type} (ids : list string)
    (m : gmap string A) :
  found_in_turn m ids
  ∨ ∃ (pre : list string) (id : string) (post : list string),
      ids = (pre ++ id :: post)%list
      ∧ found_in_turn m pre
      ∧ delete_all pre m !! id = None.
Proof.
  revert m. induction ids as [|id ids IH]; intros m.
  - left. intros j x Hj. by rewrite lookup_nil in Hj.
  - destruct (m !! id) as [a|] eqn:Hid.
    + destruct (IH (delete id m)) as [Hf|(pre & x & post & -> & Hf & Hx)].
      * left. apply found_in_turn_cons. split; [by eexists | done].
      * right. exists (id :: pre), x, post. split; [done |].
        split; [|done]. apply found_in_turn_cons. split; [by eexists | done].
    + right. exists [], id, ids. split; [done |]. split; [|done].
      intros j x Hj. by rewrite lookup_nil in Hj.
Qed.

(** A batch without repetition, all of whose identifiers are stored, finds
    each of them in its turn. *)
Lemma found_in_turn_NoDup {A : Type} (ids : list string) (m : gmap string A) :
  NoDup ids → (∀ id, id ∈ ids → is_Some (m !! id)) → found_in_turn m ids.
Proof.
  revert m. induction ids as [|id ids IH]; intros m Hnd Hall.
  - intros j x Hj. by rewrite lookup_nil in Hj.
  - apply NoDup_cons in Hnd as [Hnotin Hnd].
    apply found_in_turn_cons. split; [apply Hall; left |].
    apply IH; [done |]. intros x Hx.
    rewrite lookup_delete_ne by (intros ->; done).
    apply Hall. by right.
Qed.

(** ** Filtering a list with a boolean test *)

Lemma elem_of_List_filter {A : Type} (f : A → bool) (l : list A) (x : A) :
  x ∈ List.filter f l ↔ x ∈ l ∧ f x = true.
Proof. rewrite !list_elem_of_In. apply filter_In. Qed.

Lemma in_window_spec (first last id : Z) :
  ThingRepo.in_window first last id = true ↔ first ≤ id < last.
Proof. unfold ThingRepo.in_window. rewrite andb_true_iff. lia. Qed.

(** Without overflow the window [first, last) of the two
    [RetrieveByGroupIDs] is [offset + 1, offset + limit]. *)
Lemma window_bounds (offset limit id : Z) :
  0 ≤ offset → 0 < limit → offset + limit + 1 < 2 ^ 64 →
  (u64 (offset + 1) ≤ id < u64 (u64 (offset + 1) + limit)
   ↔ offset + 1 ≤ id ≤ offset + limit).
Proof.
  intros Ho Hl Hmax. unfold u64.
  rewrite (Z.mod_small (offset + 1)) by lia.
  rewrite Z.mod_small by lia. lia.
Qed.

(** ** The Things table *)

Module ThingFacts.
Import ThingRepo.

Section WithRange.
Context `{MapRange}.
Implicit Types (trm : thingRepositoryMock) (m : gmap string Thing.t).

(** *** The key scan, whatever the iteration order *)

Lemma scan_key_None m (k : string) :
  scan_key m k = None ↔ ∀ i th, m !! i = Some th → Thing.Key th ≠ k.
Proof.
  unfold scan_key. rewrite fmap_None, find_None_iff. split.
  - intros Hall i th Hi. apply elem_of_range in Hi.
    apply Hall in Hi. simpl in Hi. by apply bool_decide_eq_false in Hi.
  - intros Hall [i th] Hin%elem_of_range. simpl.
    apply bool_decide_eq_false. eauto.
Qed.

Lemma scan_key_Some m (k : string) (th : Thing.t) :
  scan_key m k = Some th → ∃ i, m !! i = Some th ∧ Thing.Key th = k.
Proof.
  unfold scan_key. intros Hfind.
  apply fmap_Some in Hfind as [[i x] [Hfind ->]].
  apply find_Some_elem in Hfind as [Hin Hk]. simpl in *.
  exists i. split; [by apply elem_of_range | by apply bool_decide_eq_true in Hk].
Qed.

Lemma scan_key_used m (k i : string) (th : Thing.t) :
  m !! i = Some th → Thing.Key th = k → is_Some (scan_key m k).
Proof.
  intros Hi Hk. unfold scan_key. apply fmap_is_Some.
  apply (find_is_Some _ _ (i, th)); [by apply elem_of_range |].
  by apply bool_decide_eq_true.
Qed.

Lemma scan_key_unique m (k i : string) (th : Thing.t) :
  m !! i = Some th → Thing.Key th = k →
  (∀ j b, m !! j = Some b → Thing.Key b = k → j = i) →
  scan_key m k = Some th.
Proof.
  intros Hi Hk Huniq.
  destruct (scan_key_used m k i th Hi Hk) as [b Hb]. rewrite Hb.
  destruct (scan_key_Some _ _ _ Hb) as (j & Hj & Hkb).
  rewrite (Huniq j b Hj Hkb) in Hj. congruence.
Qed.

(** *** Every Thing is stored under its own identifier *)

Lemma keyed_by_ID_insert m (th : Thing.t) :
  keyed_by_ID m → keyed_by_ID (<[Thing.ID th := th]> m).
Proof.
  intros Hm i x. rewrite lookup_insert. case_decide as Hi.
  - by intros [= <-].
  - apply Hm.
Qed.

Lemma keyed_by_ID_delete m (i : string) :
  keyed_by_ID m → keyed_by_ID (delete i m).
Proof. intros Hm j x Hj. apply lookup_delete_Some in Hj as [_ Hj]. eauto. Qed.

Lemma Save_one_keyed_by_ID trm trm' (th th' : Thing.t) :
  Save_one trm th = inl (trm', th') →
  keyed_by_ID (things trm) → keyed_by_ID (things trm').
Proof.
  unfold Save_one. destruct (scan_key _ _); [done |].
  intros [= <- <-] Hm. simpl. by apply keyed_by_ID_insert.
Qed.

Lemma Save_keyed_by_ID (ths : list Thing.t) trm :
  keyed_by_ID (things trm) → keyed_by_ID (things (fst (Save trm ths))).
Proof.
  revert trm. induction ths as [|th ths IH]; intros trm Hm; simpl; [done |].
  destruct (Save_one trm th) as [[trm1 th']|e] eqn:E; [|done].
  specialize (IH trm1 (Save_one_keyed_by_ID _ _ _ _ E Hm)).
  by destruct (Save trm1 ths) as [trm2 [out err]].
Qed.

Lemma Update_keyed_by_ID trm (th : Thing.t) :
  keyed_by_ID (things trm) → keyed_by_ID (things (fst (Update trm th))).
Proof.
  intros Hm. unfold Update. destruct (things trm !! Thing.ID th); [|done].
  simpl. by apply keyed_by_ID_insert.
Qed.

Lemma UpdateKey_keyed_by_ID trm (id val : string) :
  keyed_by_ID (things trm) → keyed_by_ID (things (fst (UpdateKey trm id val))).
Proof.
  intros Hm. unfold UpdateKey. destruct (scan_key _ _); [done |].
  destruct (things trm !! id) as [th|] eqn:Hid; [|done]. simpl.
  pose proof (Hm _ _ Hid) as Hth.
  replace id with (Thing.ID (Thing.with_Key val th)) at 1 by done.
  by apply keyed_by_ID_insert.
Qed.

Lemma Remove_keyed_by_ID (ids : list string) trm :
  keyed_by_ID (things trm) → keyed_by_ID (things (fst (Remove trm ids))).
Proof.
  revert trm. induction ids as [|id ids IH]; intros trm Hm; simpl; [done |].
  destruct (things trm !! id); [|done].
  apply IH. simpl. by apply keyed_by_ID_delete.
Qed.

Lemma things_consume trm (conn : Connection) :
  things (consume trm conn) = things trm.
Proof.
  unfold consume, connect, disconnect.
  destruct (connected conn); [done |]. by case_decide.
Qed.

Lemma step_keyed_by_ID trm (c : call) :
  keyed_by_ID (things trm) → keyed_by_ID (things (step trm c)).
Proof.
  destruct c; simpl; rewrite ?things_consume;
    auto using Save_keyed_by_ID, Update_keyed_by_ID, UpdateKey_keyed_by_ID,
      Remove_keyed_by_ID.
Qed.

Lemma foldl_step_keyed_by_ID (cs : list call) trm :
  keyed_by_ID (things trm) → keyed_by_ID (things (foldl step trm cs)).
Proof.
  revert trm. induction cs as [|c cs IH]; intros trm Hm; simpl; [done |].
  by apply IH, step_keyed_by_ID.
Qed.

Lemma reachable_keyed_by_ID trm : reachable trm → keyed_by_ID (things trm).
Proof.
  intros [cs ->]. apply foldl_step_keyed_by_ID. intros i th Hi.
  simpl in Hi. by rewrite lookup_empty in Hi.
Qed.
(** *** Uniqueness of access keys *)

Lemma keys_unique_insert_fresh m (i : string) (th : Thing.t) :
  keys_unique m →
  (∀ j b, m !! j = Some b → j ≠ i → Thing.Key b ≠ Thing.Key th) →
  keys_unique (<[i := th]> m).
Proof.
  intros Hm Hfresh j1 j2 a b.
  rewrite !lookup_insert. repeat case_decide; subst.
  - done.
  - intros [= <-] Hb Hk. by destruct (Hfresh _ _ Hb).
  - intros Ha [= <-] Hk. by destruct (Hfresh _ _ Ha).
  - apply Hm.
Qed.

Lemma keys_unique_delete m (i : string) :
  keys_unique m → keys_unique (delete i m).
Proof.
  intros Hm j1 j2 a b [_ Ha]%lookup_delete_Some [_ Hb]%lookup_delete_Some.
  by apply Hm.
Qed.

Lemma Save_one_keys_unique trm trm' (th th' : Thing.t) :
  Save_one trm th = inl (trm', th') →
  keys_unique (things trm) → keys_unique (things trm').
Proof.
  unfold Save_one. destruct (scan_key _ _) eqn:Hscan; [done |].
  rewrite scan_key_None in Hscan.
  intros [= <- <-] Hm. simpl. apply keys_unique_insert_fresh; [done |].
  intros j b Hb _. case_decide; simpl; eauto.
Qed.

Lemma Save_keys_unique (ths : list Thing.t) trm :
  keys_unique (things trm) → keys_unique (things (fst (Save trm ths))).
Proof.
  revert trm. induction ths as [|th ths IH]; intros trm Hm; simpl; [done |].
  destruct (Save_one trm th) as [[trm1 th']|e] eqn:E; [|done].
  specialize (IH trm1 (Save_one_keys_unique _ _ _ _ E Hm)).
  by destruct (Save trm1 ths) as [trm2 [out err]].
Qed.

Lemma UpdateKey_keys_unique trm (id val : string) :
  keys_unique (things trm) → keys_unique (things (fst (UpdateKey trm id val))).
Proof.
  intros Hm. unfold UpdateKey. destruct (scan_key _ _) eqn:Hscan; [done |].
  rewrite scan_key_None in Hscan.
  destruct (things trm !! id) as [th|]; [|done]. simpl.
  apply keys_unique_insert_fresh; [done |]. intros j b Hb _. simpl. eauto.
Qed.

Lemma Remove_keys_unique (ids : list string) trm :
  keys_unique (things trm) → keys_unique (things (fst (Remove trm ids))).
Proof.
  revert trm. induction ids as [|id ids IH]; intros trm Hm; simpl; [done |].
  destruct (things trm !! id); [|done].
  apply IH. simpl. by apply keys_unique_delete.
Qed.

(** *** Save of two Things that carry the same key *)

(** C1. [Save] of a batch [T1, T2] whose two Things carry the same access
    key, on a table where nobody holds that key, fails with [ErrConflict]
    and returns no Thing, but the first Thing is stored by then: the table
    afterwards is the table before with [T1] inserted under its (given or
    generated) identifier, and so differs from the table before. *)
Theorem Save_same_key_pair_keeps_first trm (T1 T2 : Thing.t) :
  Thing.Key T1 = Thing.Key T2 →
  (∀ i th, things trm !! i = Some th → Thing.Key th ≠ Thing.Key T1) →
  ∃ T1' : Thing.t,
    snd (Save trm [T1; T2]) = ([], Some ErrConflict)
    ∧ Thing.Key T1' = Thing.Key T1
    ∧ things (fst (Save trm [T1; T2])) = <[Thing.ID T1' := T1']> (things trm)
    ∧ things (fst (Save trm [T1; T2])) ≠ things trm.
Proof.
  intros Hk Hfree.
  destruct (Save_one trm T1) as [[trm1 T1']|e] eqn:E1.
  2:{ unfold Save_one in E1. apply scan_key_None in Hfree.
      by rewrite Hfree in E1. }
  assert (Thing.Key T1' = Thing.Key T1
          ∧ things trm1 = <[Thing.ID T1' := T1']> (things trm)) as [HkT HthT].
  { unfold Save_one in E1. destruct (scan_key _ _); [done |].
    injection E1 as <- <-. by case_decide. }
  assert (Save_one trm1 T2 = inr ErrConflict) as E2.
  { unfold Save_one.
    destruct (scan_key_used (things trm1) (Thing.Key T2) (Thing.ID T1') T1')
      as [b ->]; [|congruence|done].
    rewrite HthT. apply lookup_insert_eq. }
  exists T1'. simpl. rewrite E1, E2. simpl. repeat split; try done.
  rewrite HthT. intros Heq.
  apply (Hfree (Thing.ID T1') T1'); [|done].
  rewrite <- Heq. apply lookup_insert_eq.
Qed.

(** *** Failing calls, and the key change *)

(** C7. [UpdateKey] answers [ErrConflict] as soon as some stored Thing
    holds the new key, whether or not [id] exists; failing that,
    [ErrNotFound] when [id] is absent; otherwise it stores the Thing with
    its key changed, and on a table reached by calls of the repository
    [RetrieveByKey] then gives [id] back. *)
Theorem UpdateKey_then_RetrieveByKey trm (id k : string) :
  reachable trm →
  ((∃ i th, things trm !! i = Some th ∧ Thing.Key th = k) →
     UpdateKey trm id k = (trm, Some ErrConflict))
  ∧ ((∀ i th, things trm !! i = Some th → Thing.Key th ≠ k) →
     things trm !! id = None →
     UpdateKey trm id k = (trm, Some ErrNotFound))
  ∧ ((∀ i th, things trm !! i = Some th → Thing.Key th ≠ k) →
     ∀ th, things trm !! id = Some th →
     UpdateKey trm id k
       = (set_things (<[id := Thing.with_Key k th]> (things trm)) trm, None)
     ∧ RetrieveByKey (fst (UpdateKey trm id k)) k = (id, None)).
Proof.
  intros Hreach. pose proof (reachable_keyed_by_ID _ Hreach) as Hids.
  split; [|split].
  - intros (i & th & Hi & Hk). unfold UpdateKey.
    by destruct (scan_key_used _ _ _ _ Hi Hk) as [b ->].
  - intros Hfree%scan_key_None Hid. unfold UpdateKey. by rewrite Hfree, Hid.
  - intros Hfree th Hid. pose proof Hfree as Hscan%scan_key_None.
    unfold UpdateKey. rewrite Hscan, Hid. split; [done |].
    unfold RetrieveByKey. simpl.
    rewrite (scan_key_unique _ k id (Thing.with_Key k th)).
    + simpl. by rewrite (Hids _ _ Hid).
    + apply lookup_insert_eq.
    + done.
    + intros j b. rewrite lookup_insert. case_decide; [done |].
      intros Hj Hkb. by destruct (Hfree _ _ Hj).
Qed.

(** *** Removal of a batch *)

Lemma set_things_same trm : set_things (things trm) trm = trm.
Proof. by destruct trm. Qed.

Lemma Remove_prefix (pre rest : list string) trm :
  found_in_turn (things trm) pre →
  Remove trm (pre ++ rest)
    = Remove (set_things (delete_all pre (things trm)) trm) rest.
Proof.
  revert trm. induction pre as [|id pre IH]; intros trm Hf; simpl.
  - by rewrite set_things_same.
  - apply found_in_turn_cons in Hf as [[x Hx] Hf]. rewrite Hx.
    by rewrite IH.
Qed.

(** C8, as amended. [Remove] deletes the identifiers in order. When one
    of them is missing in its turn, after every one before it was found,
    the call fails with [ErrNotFound] and the table is left with exactly
    the earlier identifiers deleted: none of them is stored any more, and
    nothing else changed. An identifier is missing in its turn when the
    table does not hold it or when it occurs earlier in the batch. When
    all identifiers are stored and none occurs twice, all are deleted,
    nothing else changes and the call succeeds. Every batch either is
    found in turn as a whole, and then removed whole, or has a first
    identifier that is missing in its turn. *)
Theorem Remove_fail_fast_no_rollback trm (ids : list string) :
  (∀ (pre : list string) (id : string) (post : list string),
      ids = (pre ++ id :: post)%list →
      found_in_turn (things trm) pre →
      delete_all pre (things trm) !! id = None →
      Remove trm ids
        = (set_things (delete_all pre (things trm)) trm, Some ErrNotFound)
      ∧ (∀ x, x ∈ pre → things (fst (Remove trm ids)) !! x = None)
      ∧ (∀ x, x ∉ pre → things (fst (Remove trm ids)) !! x = things trm !! x))
  ∧ (∀ (pre : list string) (id : string),
      delete_all pre (things trm) !! id = None
      ↔ id ∈ pre ∨ things trm !! id = None)
  ∧ (found_in_turn (things trm) ids →
      Remove trm ids = (set_things (delete_all ids (things trm)) trm, None)
      ∧ (∀ x, x ∈ ids → things (fst (Remove trm ids)) !! x = None)
      ∧ (∀ x, x ∉ ids → things (fst (Remove trm ids)) !! x = things trm !! x))
  ∧ (NoDup ids → (∀ id, id ∈ ids → is_Some (things trm !! id)) →
      Remove trm ids = (set_things (delete_all ids (things trm)) trm, None)
      ∧ (∀ x, x ∈ ids → things (fst (Remove trm ids)) !! x = None)
      ∧ (∀ x, x ∉ ids → things (fst (Remove trm ids)) !! x = things trm !! x))
  ∧ (found_in_turn (things trm) ids
     ∨ ∃ (pre : list string) (id : string) (post : list string),
         ids = (pre ++ id :: post)%list
         ∧ found_in_turn (things trm) pre
         ∧ delete_all pre (things trm) !! id = None).
Proof.
  assert (found_in_turn (things trm) ids →
          Remove trm ids = (set_things (delete_all ids (things trm)) trm, None)
          ∧ (∀ x, x ∈ ids → things (fst (Remove trm ids)) !! x = None)
          ∧ (∀ x, x ∉ ids →
               things (fst (Remove trm ids)) !! x = things trm !! x))
    as Hwhole.
  { intros Hf.
    assert (Remove trm ids
            = (set_things (delete_all ids (things trm)) trm, None)) as ->.
    { rewrite <- (app_nil_r ids) at 1. by rewrite Remove_prefix. }
    simpl. split; [done |].
    split; intros x Hx; rewrite lookup_delete_all.
    - by rewrite decide_True.
    - by rewrite decide_False. }
  split; [|split; [|split; [|split]]].
  - intros pre id post -> Hf Hmiss.
    assert (Remove trm (pre ++ id :: post)
            = (set_things (delete_all pre (things trm)) trm, Some ErrNotFound))
      as ->.
    { rewrite Remove_prefix by done. simpl. by rewrite Hmiss. }
    simpl. split; [done |].
    split; intros x Hx; rewrite lookup_delete_all.
    + by rewrite decide_True.
    + by rewrite decide_False.
  - intros pre id. rewrite lookup_delete_all.
    destruct (decide (id ∈ pre)) as [Hin|Hin]; [by split; [left |] |].
    split; [by right | by intros [?|?]].
  - exact Hwhole.
  - intros Hnd Hall. by apply Hwhole, found_in_turn_NoDup.
  - apply found_in_turn_or_first_missing.
Qed.

(** *** What [Update] does to the uniqueness of keys *)

(** [Update] stores the record it is given without looking at the keys of
    the other Things. *)
Lemma Update_shares_key trm (i : string) (a b : Thing.t) :
  things trm !! i = Some a →
  is_Some (things trm !! Thing.ID b) →
  Thing.ID b ≠ i →
  Thing.Key b = Thing.Key a →
  snd (Update trm b) = None ∧ ¬ keys_unique (things (fst (Update trm b))).
Proof.
  intros Hi [x Hb] Hne Hk. unfold Update. rewrite Hb. simpl.
  split; [done |]. intros Huniq.
  apply Hne. apply (Huniq (Thing.ID b) i b a); [| |done].
  - apply lookup_insert_eq.
  - by rewrite lookup_insert_ne.
Qed.

Lemma foldl_step_keys_unique (cs : list call) trm :
  without_Update cs →
  keys_unique (things trm) → keys_unique (things (foldl step trm cs)).
Proof.
  revert trm. induction cs as [|c cs IH]; intros trm Hcs Hm; simpl; [done |].
  apply IH.
  - intros th Hin. apply (Hcs th). by right.
  - destruct c as [ths|th|id val|ids|conn]; simpl.
    + by apply Save_keys_unique.
    + destruct (Hcs th). by left.
    + by apply UpdateKey_keys_unique.
    + by apply Remove_keys_unique.
    + by rewrite things_consume.
Qed.

(** X1. The calls that look at keys keep them unique: on every table reached
    by [Save], [UpdateKey] and [Remove] alone, whatever events arrive in
    between, no two Things share a key. *)
Theorem keys_unique_without_Update (cs : list call) :
  without_Update cs → keys_unique (things (run cs)).
Proof.
  intros Hcs. apply foldl_step_keys_unique; [done |].
  intros i j a b Hi. simpl in Hi. by rewrite lookup_empty in Hi.
Qed.
End WithRange.

(** *** The statements above on concrete tables *)

(** C2. The invariant that no two Things share an access key does not
    hold on every reachable table: after the [Save] of two Things with the
    keys [a] and [b], the [Update] of the second one with a record that
    carries the key [a] succeeds, and the table then holds two Things
    with the key [a]. *)
Theorem Update_breaks_key_uniqueness :
  reachable (run Examples.clash)
  ∧ things (run Examples.clash) !! "001" = Some (Thing.mk "001" "" "" "a" None)
  ∧ things (run Examples.clash) !! "002" = Some (Thing.mk "002" "" "" "a" None)
  ∧ ¬ keys_unique (things (run Examples.clash)).
Proof.
  assert (things (run Examples.clash) !! "001"
          = Some (Thing.mk "001" "" "" "a" None)) as H1
    by (vm_compute; reflexivity).
  assert (things (run Examples.clash) !! "002"
          = Some (Thing.mk "002" "" "" "a" None)) as H2
    by (vm_compute; reflexivity).
  split; [by eexists |]. split; [done |]. split; [done |].
  intros Huniq. by specialize (Huniq "001" "002" _ _ H1 H2 eq_refl).
Qed.

Lemma keys_unique_without_Update_witness :
  keys_unique
    (things (run [CallSave Examples.twins; CallUpdateKey "001" "z";
                  Received (mkConnection "001" (Examples.keyed "z") true);
                  CallSave Examples.twins; CallRemove ["001"]])).
Proof.
  apply keys_unique_without_Update.
  intros th Hin. repeat (apply elem_of_cons in Hin as [Hin|Hin]; [done |]).
  by apply not_elem_of_nil in Hin.
Defined.

Lemma Save_same_key_pair_witness :
  ∃ T1' : Thing.t,
    snd (Save NewThingRepository Examples.twins) = ([], Some ErrConflict)
    ∧ Thing.Key T1' = "k"
    ∧ things (fst (Save NewThingRepository Examples.twins))
      = <[Thing.ID T1' := T1']> ∅
    ∧ things (fst (Save NewThingRepository Examples.twins)) ≠ ∅.
Proof.
  apply (Save_same_key_pair_keeps_first NewThingRepository
           (Examples.keyed "k") (Examples.keyed "k")).
  - reflexivity.
  - intros i th Hi. simpl in Hi. by rewrite lookup_empty in Hi.
Defined.

(** The table after the failed [Save] of the twins: the first of them is
    stored as [001] and the counter moved on. *)
Example Save_twins_table :
  Save NewThingRepository Examples.twins
  = (mk 1 ∅ {[ "001" := Thing.mk "001" "" "" "k" None ]}, ([], Some ErrConflict)).
Proof. vm_compute. reflexivity. Qed.

Lemma UpdateKey_then_RetrieveByKey_witness :
  reachable Examples.one_thing
  ∧ UpdateKey Examples.one_thing "001" "b"
    = (set_things (<["001" := Thing.mk "001" "" "" "b" None]>
                     (things Examples.one_thing)) Examples.one_thing, None)
  ∧ RetrieveByKey (fst (UpdateKey Examples.one_thing "001" "b")) "b"
    = ("001", None).
Proof.
  assert (reachable Examples.one_thing) as Hreach by (by eexists).
  split; [done |].
  apply (proj2 (proj2
           (UpdateKey_then_RetrieveByKey Examples.one_thing "001" "b" Hreach))
           ) with (th := Thing.mk "001" "" "" "a" None).
  - intros i th Hi Hk.
    destruct (decide (i = "001")) as [->|Hne].
    + vm_compute in Hi. injection Hi as <-. discriminate Hk.
    + assert (things Examples.one_thing !! i = None) as Hnone; [|congruence].
      change (things Examples.one_thing)
        with (<["001" := Thing.mk "001" "" "" "a" None]>
                (∅ : gmap string Thing.t)).
      by rewrite lookup_insert_ne, lookup_empty.
  - vm_compute. reflexivity.
Defined.

Example UpdateKey_taken_key :
  UpdateKey Examples.one_thing "007" "a" = (Examples.one_thing, Some ErrConflict).
Proof. vm_compute. reflexivity. Qed.

Example UpdateKey_missing_id :
  UpdateKey Examples.one_thing "007" "b" = (Examples.one_thing, Some ErrNotFound).
Proof. vm_compute. reflexivity. Qed.

(** [Remove] of [001], [007], [003] on the table of three: the call fails at
    [007], [001] is gone, [003] is still there. *)
Example Remove_stops_at_missing :
  let r := Remove Examples.three_things ["001"; "007"; "003"] in
  snd r = Some ErrNotFound
  ∧ things (fst r) !! "001" = None
  ∧ is_Some (things (fst r) !! "002")
  ∧ is_Some (things (fst r) !! "003").
Proof. vm_compute. repeat split; by eexists. Qed.

(** A repeated identifier is missing at its second turn. *)
Example Remove_repeated_id :
  let r := Remove Examples.three_things ["001"; "001"; "002"] in
  snd r = Some ErrNotFound
  ∧ things (fst r) !! "001" = None
  ∧ is_Some (things (fst r) !! "002").
Proof. vm_compute. repeat split; by eexists. Qed.

(** C8 fails as stated: every identifier of the batch [001], [001] is
    stored in the table of three, yet the call fails with [ErrNotFound],
    at the second turn of [001]. *)
Lemma Remove_all_stored_yet_fails :
  (∀ id, id ∈ ["001"; "001"] →
     is_Some (things Examples.three_things !! id))
  ∧ snd (Remove Examples.three_things ["001"; "001"]) = Some ErrNotFound
  ∧ things (fst (Remove Examples.three_things ["001"; "001"])) !! "001" = None.
Proof.
  split.
  - intros id Hin.
    assert (id = "001") as ->.
    { repeat (apply elem_of_cons in Hin as [->|Hin]; [done |]).
      by apply not_elem_of_nil in Hin. }
    vm_compute. by eexists.
  - vm_compute. by split.
Qed.

Example Remove_all_found :
  let r := Remove Examples.three_things ["003"; "001"] in
  snd r = None
  ∧ things (fst r) !! "001" = None
  ∧ is_Some (things (fst r) !! "002")
  ∧ things (fst r) !! "003" = None.
Proof. vm_compute. repeat split; by eexists. Qed.
End ThingFacts.

(** ** Pages of a group *)

Module PagingFacts.
Section WithHelpers.
Context `{MapRange}.
Variable ParseID : string → Z.
Variable sortThings : PageMetadata → list Thing.t → list Thing.t.
Variable sortChannels : PageMetadata → list Channel.t → list Channel.t.
Hypothesis sortThings_perm : ∀ pm l, sortThings pm l ≡ₚ l.
Hypothesis sortChannels_perm : ∀ pm l, sortChannels pm l ≡ₚ l.

(** The Things of a page, with the window as the code computes it. *)
Lemma Things_page_members (trm : ThingRepo.thingRepositoryMock)
    (groupIDs : list string) (pm : PageMetadata) (v : Thing.t) :
  Limit pm ≠ 0 →
  v ∈ Things (fst (ThingRepo.RetrieveByGroupIDs ParseID sortThings
                     trm groupIDs pm))
  ↔ (∃ i, ThingRepo.things trm !! i = Some v)
    ∧ Thing.GroupID v ∈ groupIDs
    ∧ u64 (Offset pm + 1) ≤ ParseID (Thing.ID v)
        < u64 (u64 (Offset pm + 1) + Limit pm)
    ∧ (Name pm = "" ∨ Thing.Name v = Name pm).
Proof.
  intros Hlimit. unfold ThingRepo.RetrieveByGroupIDs.
  rewrite (proj2 (Z.eqb_neq _ _)) by done. simpl.
  rewrite sortThings_perm.
  set (first := u64 (Offset pm + 1)).
  set (last := u64 (first + Limit pm)).
  assert (v ∈ groupIDs ≫= ThingRepo.group_window ParseID
                             (ThingRepo.things trm) first last
          ↔ (∃ i, ThingRepo.things trm !! i = Some v)
            ∧ Thing.GroupID v ∈ groupIDs
            ∧ first ≤ ParseID (Thing.ID v) < last) as Hitems.
  { rewrite list_elem_of_bind. unfold ThingRepo.group_window. split.
    - intros (g & Hv & Hg). apply elem_of_List_filter in Hv as [Hv Hf].
      apply andb_true_iff in Hf as [Hgrp Hw].
      apply bool_decide_eq_true in Hgrp. subst g.
      apply elem_of_range_values in Hv. by apply in_window_spec in Hw.
    - intros (Hv & Hg & Hw). exists (Thing.GroupID v). split; [|done].
      apply elem_of_List_filter. split; [by apply elem_of_range_values |].
      apply andb_true_iff.
      split; [by apply bool_decide_eq_true | by apply in_window_spec]. }
  unfold ThingRepo.name_filter. case_decide.
  - rewrite Hitems. tauto.
  - rewrite elem_of_List_filter, Hitems, bool_decide_eq_true. tauto.
Qed.

Lemma Channels_page_members (crm : ChannelRepo.channelRepositoryMock)
    (groupIDs : list string) (pm : PageMetadata) (c : Channel.t) :
  Limit pm ≠ 0 →
  c ∈ Channels (fst (ChannelRepo.RetrieveByGroupIDs ParseID sortChannels
                       crm groupIDs pm))
  ↔ (∃ i, ChannelRepo.channels crm !! i = Some c)
    ∧ Channel.GroupID c ∈ groupIDs
    ∧ u64 (Offset pm + 1) ≤ ParseID (Channel.ID c)
        < u64 (u64 (Offset pm + 1) + Limit pm)
    ∧ (Name pm = "" ∨ Channel.Name c = Name pm).
Proof.
  intros Hlimit. unfold ChannelRepo.RetrieveByGroupIDs.
  rewrite (proj2 (Z.eqb_neq _ _)) by done. simpl.
  rewrite sortChannels_perm.
  set (first := u64 (Offset pm + 1)).
  set (last := u64 (first + Limit pm)).
  assert (c ∈ groupIDs ≫= ChannelRepo.group_window ParseID
                             (ChannelRepo.channels crm) first last
          ↔ (∃ i, ChannelRepo.channels crm !! i = Some c)
            ∧ Channel.GroupID c ∈ groupIDs
            ∧ first ≤ ParseID (Channel.ID c) < last) as Hitems.
  { rewrite list_elem_of_bind. unfold ChannelRepo.group_window. split.
    - intros (g & Hc & Hg). apply elem_of_List_filter in Hc as [Hc Hf].
      apply andb_true_iff in Hf as [Hgrp Hw].
      apply bool_decide_eq_true in Hgrp. subst g.
      apply elem_of_range_values in Hc. by apply in_window_spec in Hw.
    - intros (Hc & Hg & Hw). exists (Channel.GroupID c). split; [|done].
      apply elem_of_List_filter. split; [by apply elem_of_range_values |].
      apply andb_true_iff.
      split; [by apply bool_decide_eq_true | by apply in_window_spec]. }
  unfold ChannelRepo.name_filter. case_decide.
  - rewrite Hitems. tauto.
  - rewrite elem_of_List_filter, Hitems, bool_decide_eq_true. tauto.
Qed.

(** C3, as amended. With a limit above zero and [offset + limit + 1]
    within [uint64], the page of [RetrieveByGroupIDs] holds exactly the
    stored entities of the requested groups whose ordinal lies in the
    closed interval from [offset + 1] to [offset + limit], the ordinal
    [offset + limit] included, and that pass the name filter when the
    query carries a name. This holds for Things and for Channels. *)
Theorem RetrieveByGroupIDs_window (trm : ThingRepo.thingRepositoryMock)
    (crm : ChannelRepo.channelRepositoryMock)
    (groupIDs : list string) (pm : PageMetadata) :
  0 ≤ Offset pm → 0 < Limit pm → Offset pm + Limit pm + 1 < 2 ^ 64 →
  (∀ v : Thing.t,
      v ∈ Things (fst (ThingRepo.RetrieveByGroupIDs ParseID sortThings
                         trm groupIDs pm))
      ↔ (∃ i, ThingRepo.things trm !! i = Some v)
        ∧ Thing.GroupID v ∈ groupIDs
        ∧ Offset pm + 1 ≤ ParseID (Thing.ID v) ≤ Offset pm + Limit pm
        ∧ (Name pm = "" ∨ Thing.Name v = Name pm))
  ∧ (∀ c : Channel.t,
      c ∈ Channels (fst (ChannelRepo.RetrieveByGroupIDs ParseID sortChannels
                           crm groupIDs pm))
      ↔ (∃ i, ChannelRepo.channels crm !! i = Some c)
        ∧ Channel.GroupID c ∈ groupIDs
        ∧ Offset pm + 1 ≤ ParseID (Channel.ID c) ≤ Offset pm + Limit pm
        ∧ (Name pm = "" ∨ Channel.Name c = Name pm)).
Proof.
  intros Ho Hl Hmax. split.
  - intros v. rewrite Things_page_members by lia.
    by rewrite window_bounds.
  - intros c. rewrite Channels_page_members by lia.
    by rewrite window_bounds.
Qed.

(** C5, as amended. [RetrieveByGroupIDs] never fails. With a limit other
    than zero the page echoes the counter of its table in [Total], and
    the offset and limit of the query. With a limit of zero the page is
    the zero value: no entity, and [Total], [Offset] and [Limit] all at
    zero, whatever the counter. This holds for Things and for Channels. *)
Theorem RetrieveByGroupIDs_Total (trm : ThingRepo.thingRepositoryMock)
    (crm : ChannelRepo.channelRepositoryMock)
    (groupIDs : list string) (pm : PageMetadata) :
  let tp := ThingRepo.RetrieveByGroupIDs ParseID sortThings trm groupIDs pm in
  let cp := ChannelRepo.RetrieveByGroupIDs ParseID sortChannels crm groupIDs pm in
  snd tp = None ∧ snd cp = None
  ∧ (Limit pm ≠ 0 →
       Total (ThingsPage_meta (fst tp)) = ThingRepo.counter trm
       ∧ Offset (ThingsPage_meta (fst tp)) = Offset pm
       ∧ Limit (ThingsPage_meta (fst tp)) = Limit pm
       ∧ Total (ChannelsPage_meta (fst cp)) = ChannelRepo.counter crm
       ∧ Offset (ChannelsPage_meta (fst cp)) = Offset pm
       ∧ Limit (ChannelsPage_meta (fst cp)) = Limit pm)
  ∧ (Limit pm = 0 →
       fst tp = mkThingsPage PageMetadata_zero []
       ∧ fst cp = mkChannelsPage PageMetadata_zero []
       ∧ Total (ThingsPage_meta (fst tp)) = 0
       ∧ Total (ChannelsPage_meta (fst cp)) = 0).
Proof.
  unfold ThingRepo.RetrieveByGroupIDs, ChannelRepo.RetrieveByGroupIDs. simpl.
  destruct (Z.eqb_spec (Limit pm) 0) as [Hz|Hnz]; simpl; repeat split; done.
Qed.
End WithHelpers.

(** *** The helpers modelled after the specification *)

Lemma model_sortThings_perm (pm : PageMetadata) (l : list Thing.t) :
  SpecModel.sortThings pm l ≡ₚ l.
Proof.
  unfold SpecModel.sortThings. destruct (SpecModel.supported _); [|done].
  case_decide; by rewrite ?reverse_Permutation, merge_sort_Permutation.
Qed.

Lemma model_sortChannels_perm (pm : PageMetadata) (l : list Channel.t) :
  SpecModel.sortChannels pm l ≡ₚ l.
Proof.
  unfold SpecModel.sortChannels. destruct (SpecModel.supported _); [|done].
  case_decide; by rewrite ?reverse_Permutation, merge_sort_Permutation.
Qed.

Example model_ParseID_007 : SpecModel.ParseID "007" = 7.
Proof. reflexivity. Qed.

(** *** Concrete pages *)

(** The table of three holds [001], [002] and [003] in group [g]; the
    page of offset 0 and limit 2 is [001], [002]. *)
Lemma RetrieveByGroupIDs_window_witness :
  (∀ v : Thing.t,
      v ∈ Things (fst (ThingRepo.RetrieveByGroupIDs SpecModel.ParseID
                         SpecModel.sortThings Examples.three_things ["g"]
                         (Examples.page 0 2)))
      ↔ (∃ i, ThingRepo.things Examples.three_things !! i = Some v)
        ∧ Thing.GroupID v ∈ ["g"]
        ∧ 0 + 1 ≤ SpecModel.ParseID (Thing.ID v) ≤ 0 + 2
        ∧ ("" = "" ∨ Thing.Name v = ""))
  ∧ (∀ c : Channel.t,
      c ∈ Channels (fst (ChannelRepo.RetrieveByGroupIDs SpecModel.ParseID
                           SpecModel.sortChannels Examples.one_channel ["g"]
                           (Examples.page 0 2)))
      ↔ (∃ i, ChannelRepo.channels Examples.one_channel !! i = Some c)
        ∧ Channel.GroupID c ∈ ["g"]
        ∧ 0 + 1 ≤ SpecModel.ParseID (Channel.ID c) ≤ 0 + 2
        ∧ ("" = "" ∨ Channel.Name c = "")).
Proof.
  apply (RetrieveByGroupIDs_window SpecModel.ParseID
           SpecModel.sortThings SpecModel.sortChannels
           model_sortThings_perm model_sortChannels_perm
           Examples.three_things Examples.one_channel ["g"]
           (Examples.page 0 2)); simpl; lia.
Defined.

(** C3 fails as stated: with offset 0 and limit 2 the Thing [002], whose
    ordinal 2 is [offset + limit], is on the page. *)
Lemma RetrieveByGroupIDs_keeps_last_ordinal :
  let v := Thing.mk "002" "g" "" "b" None in
  let pm := Examples.page 0 2 in
  SpecModel.ParseID (Thing.ID v) = Offset pm + Limit pm
  ∧ ThingRepo.things Examples.three_things !! "002" = Some v
  ∧ v ∈ Things (fst (ThingRepo.RetrieveByGroupIDs SpecModel.ParseID
                       SpecModel.sortThings Examples.three_things ["g"] pm)).
Proof.
  split; [reflexivity |]. split; [vm_compute; reflexivity |].
  apply list_elem_of_In. vm_compute. tauto.
Qed.

(** C5 fails as stated: on a table whose counter is 1, the page of a query
    with limit 0 is returned without error and carries 0 in [Total]. *)
Lemma RetrieveByGroupIDs_zero_limit_Total :
  let r := ThingRepo.RetrieveByGroupIDs SpecModel.ParseID SpecModel.sortThings
             Examples.one_thing ["g"] (Examples.page 0 0) in
  snd r = None
  ∧ ThingRepo.counter Examples.one_thing = 1
  ∧ Total (ThingsPage_meta (fst r)) = 0
  ∧ Total (ThingsPage_meta (fst r)) ≠ ThingRepo.counter Examples.one_thing.
Proof. vm_compute. repeat split; discriminate. Qed.
End PagingFacts.

(** ** The Channels table and the connection indexes *)

Module ChannelFacts.
Import ChannelRepo.

Section WithRange.
Context `{MapRange}.
Implicit Types (crm : channelRepositoryMock).

(** *** Save *)

Lemma Save_cons (ch : Channel.t) (chs : list Channel.t) crm :
  Save crm (ch :: chs)
  = let '(crm2, (out, err)) := Save (fst (Save_one crm ch)) chs in
    (crm2, (snd (Save_one crm ch) :: out, err)).
Proof. reflexivity. Qed.

Lemma Save_no_error (chs : list Channel.t) crm :
  snd (snd (Save crm chs)) = None.
Proof.
  revert crm. induction chs as [|ch chs IH]; intros crm; [done |].
  rewrite Save_cons. specialize (IH (fst (Save_one crm ch))).
  by destruct (Save _ chs) as [crm2 [out err]].
Qed.

Lemma Save_app (pre post : list Channel.t) crm :
  fst (Save crm (pre ++ post)) = fst (Save (fst (Save crm pre)) post).
Proof.
  revert crm. induction pre as [|ch pre IH]; intros crm; [done |].
  rewrite <- app_comm_cons, !Save_cons.
  specialize (IH (fst (Save_one crm ch))).
  destruct (Save _ (pre ++ post)) as [crm2 [out err]].
  by destruct (Save _ pre) as [crm3 [out' err']].
Qed.

(** C10. [Save] of Channels returns no error, whatever the batch. A
    Channel that comes with an identifier is stored under it, over
    whatever record the table held there: this is the state after the
    Channel was processed ([pre] being the batch before it), and, for the
    last Channel of a batch, the state after the call. *)
Theorem Channel_Save_overwrites crm (chs : list Channel.t) :
  snd (snd (Save crm chs)) = None
  ∧ (∀ (pre : list Channel.t) (c : Channel.t),
       Channel.ID c ≠ "" →
       channels (fst (Save crm (pre ++ [c])))
         = <[Channel.ID c := c]> (channels (fst (Save crm pre)))
       ∧ channels (fst (Save crm (pre ++ [c]))) !! Channel.ID c = Some c).
Proof.
  split; [apply Save_no_error |].
  intros pre c Hid.
  assert (channels (fst (Save crm (pre ++ [c])))
          = <[Channel.ID c := c]> (channels (fst (Save crm pre)))) as ->.
  { rewrite Save_app. simpl. unfold Save_one. by rewrite decide_False. }
  split; [done | apply lookup_insert_eq].
Qed.

(** *** Remove *)

Lemma stripped_delete (id : string) (m : gmap string (gmap string Channel.t)) :
  stripped id (delete id <$> m).
Proof.
  intros thk chans. rewrite lookup_fmap.
  destruct (m !! thk) as [inner|]; simpl; [|done].
  intros [= <-]. apply lookup_delete_eq.
Qed.

Lemma stripped_delete_other (id x : string)
    (m : gmap string (gmap string Channel.t)) :
  stripped x m → stripped x (delete id <$> m).
Proof.
  intros Hm thk chans. rewrite lookup_fmap.
  destruct (m !! thk) as [inner|] eqn:Hthk; simpl; [|done].
  intros [= <-]. apply lookup_delete_None. right. by apply (Hm thk).
Qed.

Lemma Remove_keeps_stripped (x : string) (ids : list string) crm :
  stripped x (cconns crm) → stripped x (cconns (fst (fst (Remove crm ids)))).
Proof.
  revert crm. induction ids as [|id ids IH]; intros crm Hx; simpl; [done |].
  destruct (channels crm !! id); [|done].
  match goal with
  | |- context [Remove ?c ids] =>
      specialize (IH c (stripped_delete_other id x _ Hx));
      destruct (Remove c ids) as [[crm2 evs] err]
  end.
  done.
Qed.

Lemma Remove_success (ids : list string) crm crm' evs :
  Remove crm ids = (crm', evs, None) →
  (∀ id, id ∈ ids → stripped id (cconns crm'))
  ∧ evs = removal_event <$> ids.
Proof.
  revert crm crm' evs.
  induction ids as [|id ids IH]; intros crm crm' evs; simpl.
  - intros [= <- <-]. split; [|done]. intros id Hin.
    by apply not_elem_of_nil in Hin.
  - destruct (channels crm !! id); [|done].
    match goal with
    | |- context [Remove ?c ids] =>
        pose proof (Remove_keeps_stripped id ids c (stripped_delete id _))
          as Hkeep;
        specialize (IH c);
        destruct (Remove c ids) as [[crm2 evs2] err]
    end.
    intros [= <- <- ->]. destruct (IH _ _ eq_refl) as [IHs ->].
    split; [|done].
    intros x [->|Hx]%elem_of_cons; [exact Hkeep | by apply IHs].
Qed.

(** *** The consumer of the events *)

Lemma consume_removal_event (trm : ThingRepo.thingRepositoryMock) (id : string) :
  ThingRepo.consume trm (removal_event id)
  = ThingRepo.set_tconns (delete id (ThingRepo.tconns trm)) trm.
Proof. reflexivity. Qed.

Lemma consume_removal_events (ids : list string)
    (trm : ThingRepo.thingRepositoryMock) :
  ThingRepo.tconns (foldl ThingRepo.consume trm (removal_event <$> ids))
  = delete_all ids (ThingRepo.tconns trm).
Proof.
  unfold delete_all. revert trm.
  induction ids as [|id ids IH]; intros trm; [done |].
  rewrite fmap_cons. cbn [foldl]. by rewrite IH, consume_removal_event.
Qed.

(** C6. After a successful [Remove] of Channels, no Thing of the
    channel-side index has any of the removed identifiers among its
    Channels. The events sent are one per identifier, in order, each
    without a Thing and with [connected] false. On such an event the
    consumer deletes the whole entry of that Channel from the thing-side
    index, that is every pair of that Channel, and touches no other
    Channel; once all events are consumed, the entries of all removed
    Channels are gone. *)
Theorem Channel_Remove_strips_index crm crm' (ids : list string)
    (evs : list Connection) :
  Remove crm ids = (crm', evs, None) →
  (∀ id, id ∈ ids →
     ∀ thk chans, cconns crm' !! thk = Some chans → chans !! id = None)
  ∧ evs = removal_event <$> ids
  ∧ (∀ ev, ev ∈ evs →
       connected ev = false ∧ Thing.ID (thing ev) = "" ∧ chanID ev ∈ ids)
  ∧ (∀ (trm : ThingRepo.thingRepositoryMock) ev, ev ∈ evs →
       ThingRepo.tconns (ThingRepo.consume trm ev) !! chanID ev = None
       ∧ ∀ ch, ch ≠ chanID ev →
           ThingRepo.tconns (ThingRepo.consume trm ev) !! ch
           = ThingRepo.tconns trm !! ch)
  ∧ (∀ (trm : ThingRepo.thingRepositoryMock) id, id ∈ ids →
       ThingRepo.tconns (foldl ThingRepo.consume trm evs) !! id = None).
Proof.
  intros Hrem. apply Remove_success in Hrem as [Hstrip ->].
  split; [exact Hstrip |]. split; [done |]. split; [|split].
  - intros ev (id & -> & Hid)%list_elem_of_fmap. by simpl.
  - intros trm ev (id & -> & Hid)%list_elem_of_fmap.
    rewrite consume_removal_event. simpl. split.
    + apply lookup_delete_eq.
    + intros ch Hch. by rewrite lookup_delete_ne.
  - intros trm id Hid. rewrite consume_removal_events, lookup_delete_all.
    by rewrite decide_True.
Qed.

(** *** Connect and Disconnect *)

(** X2. For an existing Channel and an existing Thing, [Connect] of the one
    Thing answers [ErrConflict] exactly when the channel-side index has an
    entry for the Thing, be it an empty one. *)
Lemma Connect_conflict_iff_entry (trm : ThingRepo.thingRepositoryMock) crm
    (chID thID : string) :
  snd (RetrieveByID crm chID) = None →
  snd (ThingRepo.RetrieveByID trm thID) = None →
  snd (Connect trm crm chID [thID]) = Some ErrConflict
  ↔ is_Some (cconns crm !! thID).
Proof.
  intros Hch Hth. unfold Connect.
  destruct (RetrieveByID crm chID) as [ch [e|]]; [done |]. simpl.
  destruct (cconns crm !! thID) as [chans|]; simpl.
  - split; [by eexists | done].
  - destruct (ThingRepo.RetrieveByID trm thID) as [th [e|]]; [done |].
    simpl. split; [done | by intros [? ?]].
Qed.

(** [Disconnect] of a recorded pair leaves the entry of the Thing in the
    index, without the Channel. *)
Lemma Disconnect_leaves_entry crm (chID thID : string)
    (chans : gmap string Channel.t) (ch : Channel.t) :
  cconns crm !! thID = Some chans →
  chans !! chID = Some ch →
  Disconnect crm chID [thID]
  = (set_cconns (<[thID := delete chID chans]> (cconns crm)) crm,
     [mkConnection chID (Thing.with_ID thID Thing.zero) false], None).
Proof. intros Hth Hch. simpl. by rewrite Hth, Hch. Qed.

(** Hence a Thing that was connected and disconnected cannot be connected
    again, to any existing Channel. *)
Lemma Connect_after_Disconnect (trm : ThingRepo.thingRepositoryMock) crm
    (chID chID' thID : string) (chans : gmap string Channel.t) (ch : Channel.t) :
  cconns crm !! thID = Some chans →
  chans !! chID = Some ch →
  snd (RetrieveByID (fst (fst (Disconnect crm chID [thID]))) chID') = None →
  snd (Connect trm (fst (fst (Disconnect crm chID [thID]))) chID' [thID])
  = Some ErrConflict.
Proof.
  intros Hth Hch Hex.
  rewrite (Disconnect_leaves_entry _ _ _ _ _ Hth Hch) in *. simpl in *.
  unfold Connect.
  destruct (RetrieveByID _ chID') as [c [e|]]; [done |]. simpl.
  by rewrite lookup_insert_eq.
Qed.
End WithRange.

(** *** The statements above on concrete repositories *)

Example Channel_Save_over_stored :
  let c := Channel.mk "001" "g" "renamed" None in
  channels Examples.one_channel !! "001" = Some (Channel.mk "001" "g" "" None)
  ∧ snd (snd (Save Examples.one_channel [c])) = None
  ∧ channels (fst (Save Examples.one_channel [c])) !! "001" = Some c.
Proof. vm_compute. repeat split. Qed.

Lemma Channel_Remove_strips_index_witness :
  let r := Remove Examples.connected_once ["001"] in
  (∀ id, id ∈ ["001"] →
     ∀ thk chans, cconns (fst (fst r)) !! thk = Some chans → chans !! id = None)
  ∧ snd (fst r) = removal_event <$> ["001"]
  ∧ (∀ ev, ev ∈ snd (fst r) →
       connected ev = false ∧ Thing.ID (thing ev) = "" ∧ chanID ev ∈ ["001"])
  ∧ (∀ (trm : ThingRepo.thingRepositoryMock) ev, ev ∈ snd (fst r) →
       ThingRepo.tconns (ThingRepo.consume trm ev) !! chanID ev = None
       ∧ ∀ ch, ch ≠ chanID ev →
           ThingRepo.tconns (ThingRepo.consume trm ev) !! ch
           = ThingRepo.tconns trm !! ch)
  ∧ (∀ (trm : ThingRepo.thingRepositoryMock) id, id ∈ ["001"] →
       ThingRepo.tconns (foldl ThingRepo.consume trm (snd (fst r))) !! id
       = None).
Proof.
  apply (Channel_Remove_strips_index Examples.connected_once).
  vm_compute. reflexivity.
Defined.

Lemma Connect_conflict_iff_entry_witness :
  snd (Connect Examples.one_thing Examples.connected_once "001" ["001"])
  = Some ErrConflict
  ↔ is_Some (cconns Examples.connected_once !! "001").
Proof.
  apply (Connect_conflict_iff_entry Examples.one_thing Examples.connected_once
           "001" "001"); vm_compute; reflexivity.
Defined.

(** C4. On a repository with the Channel [001] and the Thing [001]:
    [Connect] succeeds, [Disconnect] succeeds and leaves an empty entry for
    the Thing in the channel-side index, so that no Channel is recorded
    against the Thing and [HasThingByID] and [RetrieveConnByThingKey]
    answer [ErrAuthorization]; the second [Connect] nevertheless fails
    with [ErrConflict]. *)
Theorem Connect_after_Disconnect_conflicts :
  let c1 := Connect Examples.one_thing Examples.one_channel "001" ["001"] in
  let d := Disconnect (fst (fst c1)) "001" ["001"] in
  let c2 := Connect Examples.one_thing (fst (fst d)) "001" ["001"] in
  snd c1 = None
  ∧ snd d = None
  ∧ cconns (fst (fst d)) !! "001" = Some ∅
  ∧ ¬ has_channel (cconns (fst (fst d))) "001"
  ∧ HasThingByID (fst (fst d)) "001" "001" = Some ErrAuthorization
  ∧ snd (RetrieveConnByThingKey Examples.one_thing (fst (fst d)) "a")
    = Some ErrAuthorization
  ∧ snd c2 = Some ErrConflict.
Proof.
  cbv zeta.
  assert (cconns (fst (fst (Disconnect
            (fst (fst (Connect Examples.one_thing Examples.one_channel
                         "001" ["001"]))) "001" ["001"]))) !! "001"
          = Some ∅) as Hentry by (vm_compute; reflexivity).
  split; [vm_compute; reflexivity |]. split; [vm_compute; reflexivity |].
  split; [exact Hentry |]. split.
  { intros (chans & chID & ch & Hth & Hch). rewrite Hentry in Hth.
    injection Hth as <-. by rewrite lookup_empty in Hch. }
  split; [vm_compute; reflexivity |]. split; vm_compute; reflexivity.
Qed.
End ChannelFacts.

(** ** The Channel cache *)

Module ChannelCacheFacts.
Import ChannelCache.

(** C9. In the cache, a second [Connect] for the same Channel overwrites
    the first: the Channel is then associated with the second Thing only,
    [HasThing] is false for the first Thing and true for the second. And
    [Disconnect] gives the same cache and result as [Remove], whatever
    Thing it is given. *)
Theorem Connect_overwrites_Disconnect_is_Remove (ccm : channelCacheMock)
    (ch t1 t2 t : string) :
  t1 ≠ t2 →
  let ccm2 := fst (Connect (fst (Connect ccm ch t1)) ch t2) in
  channels ccm2 = <[ch := t2]> (channels ccm)
  ∧ channels ccm2 !! ch = Some t2
  ∧ HasThing ccm2 ch t1 = false
  ∧ HasThing ccm2 ch t2 = true
  ∧ Disconnect ccm ch t = Remove ccm ch.
Proof.
  intros Hne. simpl. rewrite insert_insert_eq. split; [done |].
  unfold HasThing. simpl. rewrite lookup_insert_eq. simpl.
  split; [done |]. split; [|split; [|done]].
  - apply bool_decide_eq_false. congruence.
  - by apply bool_decide_eq_true.
Qed.

Lemma Connect_overwrites_witness :
  let ccm2 := fst (Connect (fst (Connect NewChannelCache "c" "t1")) "c" "t2") in
  channels ccm2 = <["c" := "t2"]> ∅
  ∧ channels ccm2 !! "c" = Some "t2"
  ∧ HasThing ccm2 "c" "t1" = false
  ∧ HasThing ccm2 "c" "t2" = true
  ∧ Disconnect NewChannelCache "c" "t9" = Remove NewChannelCache "c".
Proof.
  apply (Connect_overwrites_Disconnect_is_Remove NewChannelCache
           "c" "t1" "t2" "t9").
  discriminate.
Defined.

(** A Channel that is not in the cache reads as the empty Thing
    identifier. *)
Example HasThing_missing_channel :
  HasThing NewChannelCache "c" "" = true
  ∧ HasThing NewChannelCache "c" "t1" = false.
Proof. vm_compute. split; reflexivity. Qed.
End ChannelCacheFacts.

(** * Further properties of the repositories *)

(** ** Scans by identifier and windows by position *)

Section ScanFacts.
Context `{MapRange}.
Context {A : Type} (ID : A → string).

(** On a map whose values are stored under their own identifier, the scan
    [for _, v := range m { if v.ID == id { return v } }] is the lookup
    of [id]. *)
Lemma find_by_ID_lookup (m : gmap string A) (id : string) :
  (∀ i x, m !! i = Some x → ID x = i) →
  snd <$> List.find (λ e, bool_decide (ID (snd e) = id)) (range m) = m !! id.
Proof.
  intros Hkeyed.
  destruct (List.find _ (range m)) as [[i x]|] eqn:Hfind; simpl.
  - apply find_Some_elem in Hfind as [Hin Hid]. simpl in Hid.
    apply bool_decide_eq_true in Hid. apply elem_of_range in Hin.
    rewrite <- Hid, (Hkeyed _ _ Hin). by symmetry.
  - destruct (m !! id) as [x|] eqn:Hx; [|done].
    rewrite find_None_iff in Hfind.
    specialize (Hfind (id, x) (proj2 (elem_of_range _ _ _) Hx)).
    simpl in Hfind. apply bool_decide_eq_false in Hfind.
    by destruct (Hfind (Hkeyed _ _ Hx)).
Qed.

Lemma length_range (m : gmap string A) : length (range m) = size m.
Proof. by rewrite range_perm, length_map_to_list. Qed.
End ScanFacts.

(** Without overflow, the loop of [RetrieveByAdmin] started at position
    [i] keeps the entries at the positions from [offset] up to
    [offset + limit], the latter excluded. *)
Lemma admin_window_take_drop {A : Type} (offset limit : Z) (l : list A) (i : Z) :
  0 ≤ i → 0 ≤ offset → 0 ≤ limit → offset + limit < 2 ^ 64 →
  i + Z.of_nat (length l) < 2 ^ 64 →
  admin_window offset limit i l
  = take (Z.to_nat (offset + limit - i) - Z.to_nat (offset - i))
      (drop (Z.to_nat (offset - i)) l).
Proof.
  intros Hi Ho Hl Hmax. revert i Hi.
  induction l as [|x l IH]; intros i Hi Hlen.
  - by rewrite drop_nil, take_nil.
  - cbn [admin_window]. cbn [length] in Hlen.
    assert (u64 (i + 1) = i + 1) as -> by (unfold u64; rewrite Z.mod_small; lia).
    assert (u64 (offset + limit) = offset + limit) as ->
      by (unfold u64; rewrite Z.mod_small; lia).
    rewrite IH by lia.
    destruct (Z.leb_spec offset i) as [Hoi|Hoi];
      destruct (Z.ltb_spec i (offset + limit)) as [Hin|Hin]; simpl.
    + replace (Z.to_nat (offset - i)) with 0%nat by lia.
      replace (Z.to_nat (offset - (i + 1))) with 0%nat by lia.
      replace (Z.to_nat (offset + limit - i) - 0)%nat
        with (S (Z.to_nat (offset + limit - (i + 1)) - 0)) by lia.
      done.
    + replace (Z.to_nat (offset - i)) with 0%nat by lia.
      replace (Z.to_nat (offset - (i + 1))) with 0%nat by lia.
      replace (Z.to_nat (offset + limit - i) - 0)%nat with 0%nat by lia.
      replace (Z.to_nat (offset + limit - (i + 1)) - 0)%nat with 0%nat by lia.
      done.
    + replace (Z.to_nat (offset - i)) with (S (Z.to_nat (offset - (i + 1))))
        by lia.
      simpl. f_equal. lia.
    + lia.
Qed.

(** ** More on the Things table *)

Module ThingMore.
Import ThingRepo ThingFacts.

Section WithRange.
Context `{MapRange}.
Implicit Types (trm : thingRepositoryMock) (m : gmap string Thing.t).

Lemma Sprintf_03d_nonempty (n : Z) : Sprintf_03d n ≠ "".
Proof.
  unfold Sprintf_03d.
  destruct (3 - String.length (pretty n))%nat as [|k] eqn:Hpad; simpl.
  - destruct (pretty n); simpl in *; [lia | done].
  - done.
Qed.

Lemma reachable_step trm (c : call) : reachable trm → reachable (step trm c).
Proof.
  intros [cs ->]. exists (cs ++ [c])%list. unfold run. by rewrite foldl_app.
Qed.

Lemma RetrieveByID_keyed trm (id : string) :
  keyed_by_ID (things trm) →
  RetrieveByID trm id
  = match things trm !! id with
    | Some th => (th, None)
    | None => (Thing.zero, Some ErrNotFound)
    end.
Proof.
  intros Hkeyed. unfold RetrieveByID.
  rewrite <- (find_by_ID_lookup Thing.ID (things trm) id Hkeyed).
  by destruct (List.find _ _).
Qed.

(** X3. The scan of [RetrieveByID] finds what the map holds under the
    identifier: on every table reached by calls of the repository,
    [RetrieveByID] returns the Thing stored under [id], and fails with
    [ErrNotFound], returning the zero Thing, exactly when nothing is
    stored under [id]. *)
Theorem RetrieveByID_is_lookup trm (id : string) :
  reachable trm →
  RetrieveByID trm id
  = match things trm !! id with
    | Some th => (th, None)
    | None => (Thing.zero, Some ErrNotFound)
    end.
Proof. intros Hreach. by apply RetrieveByID_keyed, reachable_keyed_by_ID. Qed.

(** *** Save *)

(** The Thing as [Save] stores it when the counter is at [c]. *)
Lemma Save_one_free trm (T : Thing.t) :
  (∀ i th, things trm !! i = Some th → Thing.Key th ≠ Thing.Key T) →
  ∃ T' : Thing.t,
    Save_one trm T
    = inl (mk (u64 (counter trm + 1)) (tconns trm)
             (<[Thing.ID T' := T']> (things trm)), T')
    ∧ T' = (if decide (Thing.ID T = "")
            then Thing.with_ID (Sprintf_03d (u64 (counter trm + 1))) T else T)
    ∧ Thing.ID T' ≠ "" ∧ Thing.Key T' = Thing.Key T.
Proof.
  intros Hfree%scan_key_None. unfold Save_one. rewrite Hfree.
  eexists. split; [done |]. split; [done |].
  case_decide; simpl; [|done]. split; [apply Sprintf_03d_nonempty | done].
Qed.

Lemma Save_one_outcome trm (T : Thing.t) :
  Save_one trm T = inr ErrConflict
  ∨ ∃ trm1 T', Save_one trm T = inl (trm1, T')
      ∧ counter trm1 = u64 (counter trm + 1)
      ∧ tconns trm1 = tconns trm
      ∧ Thing.ID T' ≠ "".
Proof.
  unfold Save_one. destruct (scan_key _ _); [by left |]. right.
  eexists _, _. split; [done |]. simpl. split; [done |]. split; [done |].
  case_decide; simpl; [apply Sprintf_03d_nonempty | done].
Qed.

(** X4. [Save] fails with [ErrConflict] only, and then returns no Thing. When
    it succeeds it returns as many Things as it was given, each with an
    identifier that is not empty, and the counter has advanced by the
    size of the batch (in [uint64]). Either way it leaves the thing-side
    connection index alone. *)
Theorem Save_outcome trm (ths : list Thing.t) :
  0 ≤ counter trm < 2 ^ 64 →
  tconns (fst (Save trm ths)) = tconns trm
  ∧ (snd (Save trm ths) = ([], Some ErrConflict)
     ∨ (snd (snd (Save trm ths)) = None
        ∧ length (fst (snd (Save trm ths))) = length ths
        ∧ Forall (λ th, Thing.ID th ≠ "") (fst (snd (Save trm ths)))
        ∧ counter (fst (Save trm ths))
          = u64 (counter trm + Z.of_nat (length ths)))).
Proof.
  revert trm. induction ths as [|T ths IH]; intros trm Hc.
  - split; [done |]. right. simpl. repeat split; [constructor |].
    unfold u64. rewrite Z.add_0_r. by rewrite Z.mod_small.
  - cbn [Save].
    destruct (Save_one_outcome trm T)
      as [->|(trm1 & T' & -> & Hc1 & Ht1 & HT')]; [by split; [|left] |].
    assert (0 ≤ counter trm1 < 2 ^ 64) as Hc1'.
    { rewrite Hc1. unfold u64. by apply Z.mod_pos_bound. }
    destruct (IH trm1 Hc1') as [Ht [Hfail|(Herr & Hlen & Hids & Hcount)]];
      destruct (Save trm1 ths) as [trm2 [out err]]; simpl in *.
    + injection Hfail as -> ->. split; [congruence | by left].
    + subst err. split; [congruence |]. right.
      split; [done |]. split; [simpl; congruence |]. split; [by constructor |].
      rewrite Hcount, Hc1. unfold u64.
      rewrite Zplus_mod_idemp_l. f_equal. lia.
Qed.

(** X5. A Thing saved alone, with a key nobody holds, is stored under its
    identifier (the one it came with, or the counter formatted on three
    digits when it came with none) and is found again by that identifier
    and by its key. *)
Theorem Save_then_retrieve trm (T : Thing.t) :
  reachable trm →
  (∀ i th, things trm !! i = Some th → Thing.Key th ≠ Thing.Key T) →
  ∃ T' : Thing.t,
    T' = (if decide (Thing.ID T = "")
          then Thing.with_ID (Sprintf_03d (u64 (counter trm + 1))) T else T)
    ∧ Save trm [T]
      = (mk (u64 (counter trm + 1)) (tconns trm)
           (<[Thing.ID T' := T']> (things trm)), ([T'], None))
    ∧ RetrieveByID (fst (Save trm [T])) (Thing.ID T') = (T', None)
    ∧ RetrieveByKey (fst (Save trm [T])) (Thing.Key T) = (Thing.ID T', None).
Proof.
  intros Hreach Hfree.
  destruct (Save_one_free trm T Hfree) as (T' & HS & HT' & Hid & Hkey).
  exists T'. split; [done |]. cbn [Save]. rewrite HS. simpl.
  split; [done |]. split.
  - rewrite RetrieveByID_keyed; simpl.
    + by rewrite lookup_insert_eq.
    + by apply keyed_by_ID_insert, reachable_keyed_by_ID.
  - unfold RetrieveByKey. simpl.
    rewrite (scan_key_unique _ (Thing.Key T) (Thing.ID T') T'); [done |..].
    + apply lookup_insert_eq.
    + done.
    + intros j b. rewrite lookup_insert.
      destruct (decide (Thing.ID T' = j)) as [<-|Hne]; [done |].
      intros Hj Hkb. by destruct (Hfree _ _ Hj).
Qed.

(** X6. [Save] of one Thing fails exactly when some stored Thing holds its
    key; a batch whose first Thing collides in this way changes nothing,
    the counter included. *)
Theorem Save_conflict_unchanged trm (T : Thing.t) (rest : list Thing.t) :
  (snd (snd (Save trm [T])) = Some ErrConflict
   ↔ ∃ i th, things trm !! i = Some th ∧ Thing.Key th = Thing.Key T)
  ∧ ((∃ i th, things trm !! i = Some th ∧ Thing.Key th = Thing.Key T) →
     Save trm (T :: rest) = (trm, ([], Some ErrConflict))).
Proof.
  assert ((∃ i th, things trm !! i = Some th ∧ Thing.Key th = Thing.Key T) →
          Save_one trm T = inr ErrConflict) as Hused.
  { intros (i & th & Hi & Hk). unfold Save_one.
    by destruct (scan_key_used _ _ _ _ Hi Hk) as [b ->]. }
  split; [split |].
  - cbn [Save]. unfold Save_one.
    destruct (scan_key (things trm) (Thing.Key T)) as [b|] eqn:Hscan; [|done].
    intros _. apply scan_key_Some in Hscan as (i & Hi & Hk). eauto.
  - intros Hex. cbn [Save]. by rewrite (Hused Hex).
  - intros Hex. cbn [Save]. by rewrite (Hused Hex).
Qed.

(** *** Update *)

(** X7. [Update] of a Thing whose identifier is not stored fails with
    [ErrNotFound] and changes nothing. Otherwise it succeeds, the record
    is then the one [RetrieveByID] returns for that identifier, every
    other identifier reads as before, and the counter has not moved. *)
Theorem Update_then_RetrieveByID trm (th : Thing.t) :
  reachable trm →
  (things trm !! Thing.ID th = None → Update trm th = (trm, Some ErrNotFound))
  ∧ (is_Some (things trm !! Thing.ID th) →
     snd (Update trm th) = None
     ∧ RetrieveByID (fst (Update trm th)) (Thing.ID th) = (th, None)
     ∧ counter (fst (Update trm th)) = counter trm
     ∧ ∀ j, j ≠ Thing.ID th →
         RetrieveByID (fst (Update trm th)) j = RetrieveByID trm j).
Proof.
  intros Hreach. pose proof (reachable_keyed_by_ID _ Hreach) as Hkeyed.
  split.
  - intros Hnone. unfold Update. by rewrite Hnone.
  - intros [x Hx]. unfold Update. rewrite Hx. simpl.
    assert (keyed_by_ID (<[Thing.ID th := th]> (things trm))) as Hkeyed'
      by by apply keyed_by_ID_insert.
    split; [done |]. split; [|split; [done |]].
    + rewrite RetrieveByID_keyed by done. simpl. by rewrite lookup_insert_eq.
    + intros j Hj. rewrite !RetrieveByID_keyed by done. simpl.
      by rewrite lookup_insert_ne.
Qed.

(** *** Remove *)

Lemma Remove_frame (ids : list string) trm :
  counter (fst (Remove trm ids)) = counter trm
  ∧ tconns (fst (Remove trm ids)) = tconns trm.
Proof.
  revert trm. induction ids as [|id ids IH]; intros trm; simpl; [done |].
  destruct (things trm !! id); [|done]. by rewrite !(proj1 (IH _)), !(proj2 (IH _)).
Qed.

Lemma Remove_success_things (ids : list string) trm :
  snd (Remove trm ids) = None →
  things (fst (Remove trm ids)) = delete_all ids (things trm).
Proof.
  revert trm. induction ids as [|id ids IH]; intros trm; simpl; [done |].
  destruct (things trm !! id); [|done]. intros Hok. by rewrite IH.
Qed.

(** X8. After a successful [Remove], [RetrieveByID] fails with [ErrNotFound]
    for every identifier of the batch and answers as before for every
    other one. [Remove] never moves the counter, failing or not, so an
    identifier generated by a later [Save] is not one generated before. *)
Theorem Remove_then_RetrieveByID trm (ids : list string) :
  reachable trm →
  snd (Remove trm ids) = None →
  counter (fst (Remove trm ids)) = counter trm
  ∧ (∀ id, id ∈ ids →
       RetrieveByID (fst (Remove trm ids)) id = (Thing.zero, Some ErrNotFound))
  ∧ (∀ id, id ∉ ids →
       RetrieveByID (fst (Remove trm ids)) id = RetrieveByID trm id).
Proof.
  intros Hreach Hok.
  pose proof (reachable_step trm (CallRemove ids) Hreach) as Hreach'.
  simpl in Hreach'.
  split; [apply Remove_frame |].
  split; intros id Hid;
    rewrite !RetrieveByID_keyed by (by apply reachable_keyed_by_ID);
    rewrite Remove_success_things, lookup_delete_all by done.
  - by rewrite decide_True.
  - by rewrite decide_False.
Qed.

(** *** RetrieveByKey *)

(** X9. [RetrieveByKey] fails, with [ErrNotFound], exactly when no stored
    Thing holds the key; the identifier it returns otherwise is that of a
    stored Thing that holds the key. *)
Theorem RetrieveByKey_owner trm (k : string) :
  reachable trm →
  (snd (RetrieveByKey trm k) = Some ErrNotFound
   ↔ ∀ i th, things trm !! i = Some th → Thing.Key th ≠ k)
  ∧ (snd (RetrieveByKey trm k) = None ∨ snd (RetrieveByKey trm k) = Some ErrNotFound)
  ∧ (∀ id, RetrieveByKey trm k = (id, None) →
       ∃ th, things trm !! id = Some th ∧ Thing.Key th = k).
Proof.
  intros Hreach. pose proof (reachable_keyed_by_ID _ Hreach) as Hkeyed.
  unfold RetrieveByKey.
  destruct (scan_key (things trm) k) as [b|] eqn:Hscan; simpl.
  - apply scan_key_Some in Hscan as (i & Hi & Hk).
    split; [|split; [by left |]].
    + split; [done |]. intros Hfree. by destruct (Hfree _ _ Hi).
    + intros id [= <-]. exists b. by rewrite (Hkeyed _ _ Hi).
  - rewrite scan_key_None in Hscan. split; [done |]. split; [by right | done].
Qed.
End WithRange.
End ThingMore.

(** ** More on pages and snapshots *)

Module PagingMore.
Section WithHelpers.
Context `{MapRange}.
Variable ParseID : string → Z.
Variable sortThings : PageMetadata → list Thing.t → list Thing.t.
Hypothesis sortThings_perm : ∀ pm l, sortThings pm l ≡ₚ l.

(** The window by position of an enumeration of a map: what the loop of
    [RetrieveByAdmin] keeps, whatever the order it met the entries in. *)
Lemma admin_window_of_range {A : Type} (m : gmap string A) (offset limit : Z) :
  0 ≤ offset → 0 ≤ limit → offset + limit < 2 ^ 64 →
  Z.of_nat (size m) < 2 ^ 64 →
  let page := admin_window offset limit 0 (snd <$> range m) in
  (∃ l, l ≡ₚ snd <$> map_to_list m
        ∧ page = take (Z.to_nat limit) (drop (Z.to_nat offset) l))
  ∧ length page = (Z.to_nat limit `min` (size m - Z.to_nat offset))%nat
  ∧ (∀ v, v ∈ page → ∃ i, m !! i = Some v)
  ∧ (offset = 0 → Z.of_nat (size m) ≤ limit → page ≡ₚ snd <$> map_to_list m).
Proof.
  intros Ho Hl Hmax Hsize. cbv zeta.
  assert (admin_window offset limit 0 (snd <$> range m)
          = take (Z.to_nat limit) (drop (Z.to_nat offset) (snd <$> range m)))
    as ->.
  { rewrite admin_window_take_drop;
      rewrite ?length_fmap, ?length_range; try lia.
    rewrite !Z.sub_0_r.
    by replace (Z.to_nat (offset + limit) - Z.to_nat offset)%nat
      with (Z.to_nat limit) by lia. }
  split; [|split; [|split]].
  - exists (snd <$> range m). split; [by rewrite range_perm | done].
  - by rewrite length_take, length_drop, length_fmap, length_range.
  - intros v Hv. apply elem_of_range_values.
    by eapply subseteq_drop, subseteq_take.
  - intros -> Hle. simpl. rewrite drop_0, take_ge.
    + by rewrite range_perm.
    + rewrite length_fmap, length_range. lia.
Qed.

(** X10. [RetrieveByAdmin] windows the table by position in the order its
    loop meets the entries: when [offset + limit] does not overflow, it
    never fails, [Total] is the counter (not the size of the table or of
    the page), and the page is the [limit] entries that follow the first
    [offset] ones of some enumeration of the table. Whatever that order,
    the page has the smaller of [limit] and of the size of the table less
    [offset] entries, each of them stored, and with an offset of zero and
    a limit not less than the size of the table it holds the whole table.
    This holds for Things and for Channels. *)
Theorem RetrieveByAdmin_window (trm : ThingRepo.thingRepositoryMock)
    (crm : ChannelRepo.channelRepositoryMock) (pm : PageMetadata) :
  0 ≤ Offset pm → 0 ≤ Limit pm → Offset pm + Limit pm < 2 ^ 64 →
  Z.of_nat (size (ThingRepo.things trm)) < 2 ^ 64 →
  Z.of_nat (size (ChannelRepo.channels crm)) < 2 ^ 64 →
  let tp := ThingRepo.RetrieveByAdmin trm pm in
  let cp := ChannelRepo.RetrieveByAdmin crm pm in
  (snd tp = None
   ∧ ThingsPage_meta (fst tp)
     = mkPageMetadata (ThingRepo.counter trm) (Offset pm) (Limit pm) "" "" ""
   ∧ (∃ l, l ≡ₚ snd <$> map_to_list (ThingRepo.things trm)
           ∧ Things (fst tp)
             = take (Z.to_nat (Limit pm)) (drop (Z.to_nat (Offset pm)) l))
   ∧ length (Things (fst tp))
     = (Z.to_nat (Limit pm)
        `min` (size (ThingRepo.things trm) - Z.to_nat (Offset pm)))%nat
   ∧ (∀ v, v ∈ Things (fst tp) → ∃ i, ThingRepo.things trm !! i = Some v)
   ∧ (Offset pm = 0 → Z.of_nat (size (ThingRepo.things trm)) ≤ Limit pm →
      Things (fst tp) ≡ₚ snd <$> map_to_list (ThingRepo.things trm)))
  ∧ (snd cp = None
     ∧ ChannelsPage_meta (fst cp)
       = mkPageMetadata (ChannelRepo.counter crm) (Offset pm) (Limit pm) "" "" ""
     ∧ (∃ l, l ≡ₚ snd <$> map_to_list (ChannelRepo.channels crm)
             ∧ Channels (fst cp)
               = take (Z.to_nat (Limit pm)) (drop (Z.to_nat (Offset pm)) l))
     ∧ length (Channels (fst cp))
       = (Z.to_nat (Limit pm)
          `min` (size (ChannelRepo.channels crm) - Z.to_nat (Offset pm)))%nat
     ∧ (∀ c, c ∈ Channels (fst cp) →
          ∃ i, ChannelRepo.channels crm !! i = Some c)
     ∧ (Offset pm = 0 → Z.of_nat (size (ChannelRepo.channels crm)) ≤ Limit pm →
        Channels (fst cp) ≡ₚ snd <$> map_to_list (ChannelRepo.channels crm))).
Proof.
  intros Ho Hl Hmax Hts Hcs. cbv zeta. split.
  - unfold ThingRepo.RetrieveByAdmin. simpl.
    split; [done |]. split; [done |].
    exact (admin_window_of_range (ThingRepo.things trm) _ _ Ho Hl Hmax Hts).
  - unfold ChannelRepo.RetrieveByAdmin.
    rewrite (proj2 (Z.ltb_ge _ _)) by lia. simpl.
    split; [done |]. split; [done |].
    exact (admin_window_of_range (ChannelRepo.channels crm) _ _ Ho Hl Hmax Hcs).
Qed.

Lemma elem_of_entry_values {A : Type} (m : gmap string (gmap string A))
    (key : string) (v : A) :
  v ∈ snd <$> range (default ∅ (m !! key))
  ↔ ∃ inner k, m !! key = Some inner ∧ inner !! k = Some v.
Proof.
  rewrite elem_of_range_values. destruct (m !! key) as [inner|]; simpl.
  - split; [intros [k Hk]; eauto | by intros (? & k & [= <-] & Hk); eauto].
  - split; [intros [k Hk]; by rewrite lookup_empty in Hk | by intros (? & ? & ? & ?)].
Qed.

(** X11. [RetrieveByChannel] never fails and reports the counter in
    [Total], also for a limit of zero. Its page holds Things recorded
    against the Channel in the thing-side index only: all of them when
    the limit is zero, and otherwise those whose ordinal lies in the
    window the code computes in [uint64], from [first = offset + 1]
    included to [last = first + limit] excluded, each sum modulo [2^64].
    When [offset + limit + 1] does not overflow, that window is the
    ordinals between [offset + 1] and [offset + limit], both included. *)
Theorem RetrieveByChannel_members (trm : ThingRepo.thingRepositoryMock)
    (chID : string) (pm : PageMetadata) :
  0 ≤ Limit pm →
  let r := ThingRepo.RetrieveByChannel ParseID sortThings trm chID pm in
  snd r = None
  ∧ Total (ThingsPage_meta (fst r)) = ThingRepo.counter trm
  ∧ (∀ v : Thing.t,
       v ∈ Things (fst r)
       ↔ (∃ ths k, ThingRepo.tconns trm !! chID = Some ths ∧ ths !! k = Some v)
         ∧ (Limit pm = 0
            ∨ u64 (Offset pm + 1) ≤ ParseID (Thing.ID v)
              < u64 (u64 (Offset pm + 1) + Limit pm)))
  ∧ (0 ≤ Offset pm → Offset pm + Limit pm + 1 < 2 ^ 64 →
     ∀ v : Thing.t,
       v ∈ Things (fst r)
       ↔ (∃ ths k, ThingRepo.tconns trm !! chID = Some ths ∧ ths !! k = Some v)
         ∧ (Limit pm = 0
            ∨ Offset pm + 1 ≤ ParseID (Thing.ID v) ≤ Offset pm + Limit pm)).
Proof.
  intros Hl. unfold ThingRepo.RetrieveByChannel.
  rewrite (proj2 (Z.ltb_ge _ _)) by lia. simpl.
  split; [done |]. split; [done |].
  assert (∀ v : Thing.t,
            v ∈ sortThings pm
                  (List.filter
                     (λ co, ThingRepo.in_window (u64 (Offset pm + 1))
                              (u64 (u64 (Offset pm + 1) + Limit pm))
                              (ParseID (Thing.ID co))
                            || (Limit pm =? 0))
                     (snd <$> range (default ∅ (ThingRepo.tconns trm !! chID))))
            ↔ (∃ ths k, ThingRepo.tconns trm !! chID = Some ths
                        ∧ ths !! k = Some v)
              ∧ (Limit pm = 0
                 ∨ u64 (Offset pm + 1) ≤ ParseID (Thing.ID v)
                   < u64 (u64 (Offset pm + 1) + Limit pm))) as Hmem.
  { intros v.
    rewrite sortThings_perm, elem_of_List_filter, elem_of_entry_values.
    rewrite orb_true_iff, in_window_spec, Z.eqb_eq. tauto. }
  split; [exact Hmem |].
  intros Ho Hmax v. rewrite Hmem.
  destruct (decide (Limit pm = 0)) as [Hz|Hnz]; [tauto |].
  rewrite window_bounds by lia. tauto.
Qed.

(** X12. On every table reached by calls of the repository, [RetrieveAll]
    never fails and returns every stored Thing exactly once: as many
    Things as the table holds, none twice, and a Thing is listed exactly
    when the table holds it under its identifier. *)
Theorem RetrieveAll_snapshot (trm : ThingRepo.thingRepositoryMock) :
  ThingRepo.reachable trm →
  snd (ThingRepo.RetrieveAll trm) = None
  ∧ length (fst (ThingRepo.RetrieveAll trm)) = size (ThingRepo.things trm)
  ∧ NoDup (fst (ThingRepo.RetrieveAll trm))
  ∧ (∀ v : Thing.t,
       v ∈ fst (ThingRepo.RetrieveAll trm)
       ↔ ThingRepo.things trm !! Thing.ID v = Some v).
Proof.
  intros Hkeyed%ThingFacts.reachable_keyed_by_ID.
  unfold ThingRepo.RetrieveAll. simpl.
  split; [done |]. split; [by rewrite length_fmap, length_range |]. split.
  - rewrite range_perm. apply NoDup_fmap_2_strong; [|apply NoDup_map_to_list].
    intros [i x] [j y] Hx%elem_of_map_to_list Hy%elem_of_map_to_list. simpl.
    intros <-. by rewrite <- (Hkeyed _ _ Hx), <- (Hkeyed _ _ Hy).
  - intros v. rewrite elem_of_range_values. split.
    + intros [i Hi]. by rewrite (Hkeyed _ _ Hi).
    + eauto.
Qed.
End WithHelpers.
End PagingMore.

(** ** More on the Channels table and its connection index *)

Module ChannelMore.
Import ChannelRepo.

Section WithRange.
Context `{MapRange}.
Implicit Types (crm : channelRepositoryMock).

(** *** Disconnect and HasThingByID *)

(** X13. [HasThingByID] fails with [ErrAuthorization] only. [Disconnect] of one
    Thing succeeds exactly when [HasThingByID] does for the same pair; a
    [Disconnect] whose first Thing is not connected to the Channel fails
    with [ErrNotFound], sends nothing and changes nothing. *)
Theorem Disconnect_iff_HasThingByID crm (chID thID : string)
    (rest : list string) :
  (HasThingByID crm chID thID = None
   ∨ HasThingByID crm chID thID = Some ErrAuthorization)
  ∧ (snd (Disconnect crm chID [thID]) = None
     ↔ HasThingByID crm chID thID = None)
  ∧ (HasThingByID crm chID thID ≠ None →
     Disconnect crm chID (thID :: rest) = (crm, [], Some ErrNotFound)).
Proof.
  unfold HasThingByID. cbn [Disconnect].
  destruct (cconns crm !! thID) as [chans|]; [|by split; [right |]].
  destruct (chans !! chID) as [ch|]; [|by split; [right |]].
  split; [by left |]. by split.
Qed.

(** *** Connect, HasThingByID, Disconnect *)

(** X14. For a stored Channel and a stored Thing that has no entry in the
    index: [Connect] succeeds and sends one event, connected and carrying
    the Thing as the Thing repository holds it; [HasThingByID] then
    succeeds for the pair and answers as before for every other Thing.
    The [Disconnect] that follows succeeds and sends one event, not
    connected and carrying a Thing with the identifier only; after it
    [HasThingByID] fails with [ErrAuthorization] and a second
    [Disconnect] fails with [ErrNotFound]. *)
Theorem Connect_HasThingByID_Disconnect (trm : ThingRepo.thingRepositoryMock)
    crm (chID thID : string) :
  snd (RetrieveByID crm chID) = None →
  snd (ThingRepo.RetrieveByID trm thID) = None →
  cconns crm !! thID = None →
  let c := Connect trm crm chID [thID] in
  let d := Disconnect (fst (fst c)) chID [thID] in
  snd c = None
  ∧ snd (fst c) = [mkConnection chID (fst (ThingRepo.RetrieveByID trm thID)) true]
  ∧ HasThingByID (fst (fst c)) chID thID = None
  ∧ (∀ ch' th', th' ≠ thID →
       HasThingByID (fst (fst c)) ch' th' = HasThingByID crm ch' th')
  ∧ snd d = None
  ∧ snd (fst d) = [mkConnection chID (Thing.with_ID thID Thing.zero) false]
  ∧ HasThingByID (fst (fst d)) chID thID = Some ErrAuthorization
  ∧ snd (Disconnect (fst (fst d)) chID [thID]) = Some ErrNotFound.
Proof.
  intros Hch Hth Hnone. unfold Connect.
  destruct (RetrieveByID crm chID) as [ch [e|]]; [done |].
  cbn [Connect_loop]. rewrite Hnone.
  destruct (ThingRepo.RetrieveByID trm thID) as [th [e|]]; [done |].
  cbn [fst snd default]. unfold HasThingByID. cbn [Disconnect].
  cbn [cconns set_cconns fst snd].
  rewrite !lookup_insert_eq. cbn [fst snd cconns set_cconns].
  rewrite !lookup_insert_eq, lookup_delete_eq.
  repeat split; try done.
  intros ch' th' Hne. by rewrite lookup_insert_ne.
Qed.

(** *** Remove *)

Lemma Remove_found_prefix (pre rest : list string) crm :
  found_in_turn (channels crm) pre →
  ∃ crm1,
    counter crm1 = counter crm
    ∧ channels crm1 = delete_all pre (channels crm)
    ∧ (∀ th, cconns crm1 !! th = delete_all pre <$> cconns crm !! th)
    ∧ Remove crm (pre ++ rest)
      = (fst (fst (Remove crm1 rest)),
         ((removal_event <$> pre) ++ snd (fst (Remove crm1 rest)))%list,
         snd (Remove crm1 rest)).
Proof.
  revert crm. induction pre as [|id pre IH]; intros crm Hf.
  - exists crm. split; [done |]. split; [done |]. split.
    + intros th. by destruct (cconns crm !! th).
    + simpl. by destruct (Remove crm rest) as [[? ?] ?].
  - apply found_in_turn_cons in Hf as [[x Hx] Hf].
    destruct (IH (mk (counter crm) (delete id (channels crm))
                    (delete id <$> cconns crm)) Hf)
      as (crm1 & Hc & Hchs & Hcc & HR).
    exists crm1. split; [done |]. split; [done |]. split.
    + intros th. rewrite Hcc. simpl. rewrite lookup_fmap.
      by destruct (cconns crm !! th).
    + rewrite <- app_comm_cons. cbn [Remove]. rewrite Hx, HR. done.
Qed.

(** X15. [Remove] of Channels is fail-fast without rollback, and what it sent
    stays sent: when an identifier is missing in its turn, after every one
    before it was found, the call fails with [ErrNotFound]; the Channels
    before it are deleted from the table and from every entry of the
    index, and one event was sent for each of them. When every identifier
    is found in its turn the same holds for the whole batch and the call
    succeeds. The counter does not move. *)
Theorem Channel_Remove_fail_fast crm (ids : list string) :
  (∀ (pre : list string) (id : string) (post : list string),
      ids = (pre ++ id :: post)%list →
      found_in_turn (channels crm) pre →
      delete_all pre (channels crm) !! id = None →
      snd (Remove crm ids) = Some ErrNotFound
      ∧ snd (fst (Remove crm ids)) = removal_event <$> pre
      ∧ counter (fst (fst (Remove crm ids))) = counter crm
      ∧ channels (fst (fst (Remove crm ids))) = delete_all pre (channels crm)
      ∧ ∀ th, cconns (fst (fst (Remove crm ids))) !! th
              = delete_all pre <$> cconns crm !! th)
  ∧ (found_in_turn (channels crm) ids →
      snd (Remove crm ids) = None
      ∧ snd (fst (Remove crm ids)) = removal_event <$> ids
      ∧ counter (fst (fst (Remove crm ids))) = counter crm
      ∧ channels (fst (fst (Remove crm ids))) = delete_all ids (channels crm)
      ∧ ∀ th, cconns (fst (fst (Remove crm ids))) !! th
              = delete_all ids <$> cconns crm !! th).
Proof.
  split.
  - intros pre id post -> Hf Hmiss.
    destruct (Remove_found_prefix pre (id :: post) crm Hf)
      as (crm1 & Hc & Hchs & Hcc & ->).
    cbn [Remove]. rewrite Hchs, Hmiss. simpl. by rewrite app_nil_r.
  - intros Hf.
    destruct (Remove_found_prefix ids [] crm Hf)
      as (crm1 & Hc & Hchs & Hcc & HR).
    rewrite app_nil_r in HR. rewrite HR. simpl. by rewrite app_nil_r.
Qed.
End WithRange.
End ChannelMore.

(** ** The two repositories together *)

Module SystemFacts.
Import System.

Section WithRange.
Context `{MapRange}.
Implicit Types (trm : ThingRepo.thingRepositoryMock)
  (crm : ChannelRepo.channelRepositoryMock) (s : system).

(** *** What an event does to the pairs of the thing-side index *)

Lemma in_tconns_connect trm (chID : string) (th : Thing.t) (ch t : string) :
  in_tconns (ThingRepo.consume trm (mkConnection chID th true)) ch t
  ↔ (ch = chID ∧ t = Thing.ID th) ∨ in_tconns trm ch t.
Proof.
  unfold in_tconns. simpl.
  destruct (decide (ch = chID)) as [->|Hch].
  - rewrite lookup_insert_eq. split.
    + intros (ths & x & [= <-] & Hx).
      destruct (decide (t = Thing.ID th)) as [->|Ht]; [by left |].
      rewrite lookup_insert_ne in Hx by done. right.
      destruct (ThingRepo.tconns trm !! chID) as [inner|]; simpl in Hx.
      * eauto.
      * by rewrite lookup_empty in Hx.
    + intros [[_ ->]|(ths & x & Hths & Hx)].
      * eexists _, th. split; [done |]. apply lookup_insert_eq.
      * rewrite Hths. simpl.
        destruct (decide (t = Thing.ID th)) as [->|Ht].
        -- eexists _, th. split; [done |]. apply lookup_insert_eq.
        -- eexists _, x. split; [done |]. by rewrite lookup_insert_ne.
  - rewrite lookup_insert_ne by done. split; [by right |].
    by intros [[? _]|?].
Qed.

Lemma in_tconns_disconnect trm (chID thID : string) (ch t : string) :
  thID ≠ "" →
  in_tconns
    (ThingRepo.consume trm
       (mkConnection chID (Thing.with_ID thID Thing.zero) false)) ch t
  ↔ ¬ (ch = chID ∧ t = thID) ∧ in_tconns trm ch t.
Proof.
  intros Hne. unfold in_tconns, ThingRepo.consume, ThingRepo.disconnect.
  simpl. rewrite decide_False by done. simpl.
  rewrite lookup_alter.
  destruct (decide (chID = ch)) as [->|Hch].
  - destruct (ThingRepo.tconns trm !! ch) as [inner|]; simpl.
    + split.
      * intros (ths & x & [= <-] & Hx).
        apply lookup_delete_Some in Hx as [Ht Hx].
        split; [by intros [_ ->] | eauto].
      * intros (Hnot & ths & x & [= <-] & Hx).
        eexists _, x. split; [done |]. apply lookup_delete_Some.
        split; [|done]. intros ->. by apply Hnot.
    + split; [by intros (? & ? & ? & ?) | by intros (_ & ? & ? & ? & ?)].
  - split.
    + intros Hin. split; [|done]. intros [-> _]. done.
    + by intros [_ ?].
Qed.

Lemma in_tconns_removal trm (chID : string) (ch t : string) :
  in_tconns (ThingRepo.consume trm (removal_event chID)) ch t
  ↔ ch ≠ chID ∧ in_tconns trm ch t.
Proof.
  unfold in_tconns. simpl.
  destruct (decide (ch = chID)) as [->|Hch].
  - rewrite lookup_delete_eq.
    split; [by intros (? & ? & ? & ?) | by intros [? _]].
  - rewrite lookup_delete_ne by done. split; [done | by intros [_ ?]].
Qed.

Lemma things_drain (q : list Connection) trm :
  ThingRepo.things (foldl ThingRepo.consume trm q) = ThingRepo.things trm.
Proof.
  revert trm. induction q as [|conn q IH]; intros trm; simpl; [done |].
  by rewrite IH, ThingFacts.things_consume.
Qed.

Lemma tconns_consume_ext trm trm' (conn : Connection) :
  ThingRepo.tconns trm = ThingRepo.tconns trm' →
  ThingRepo.tconns (ThingRepo.consume trm conn)
  = ThingRepo.tconns (ThingRepo.consume trm' conn).
Proof.
  intros Heq. unfold ThingRepo.consume, ThingRepo.connect, ThingRepo.disconnect.
  destruct (connected conn); simpl; [by rewrite Heq |].
  case_decide; simpl; by rewrite Heq.
Qed.

Lemma tconns_drain_ext (q : list Connection) trm trm' :
  ThingRepo.tconns trm = ThingRepo.tconns trm' →
  ThingRepo.tconns (foldl ThingRepo.consume trm q)
  = ThingRepo.tconns (foldl ThingRepo.consume trm' q).
Proof.
  revert trm trm'. induction q as [|conn q IH]; intros trm trm' Heq; simpl;
    [done |].
  by apply IH, tconns_consume_ext.
Qed.

Lemma in_tconns_ext trm trm' (ch t : string) :
  ThingRepo.tconns trm = ThingRepo.tconns trm' →
  in_tconns trm ch t ↔ in_tconns trm' ch t.
Proof. unfold in_tconns. by intros ->. Qed.

(** *** One step of each loop keeps the invariant *)

Lemma invariant_things (ths ths' : gmap string Thing.t) crm trm trm' :
  ThingRepo.keyed_by_ID ths' → ths' !! "" = None →
  ThingRepo.tconns trm' = ThingRepo.tconns trm →
  invariant ths crm trm → invariant ths' crm trm'.
Proof.
  intros Hkeyed Hnamed Heq [? ? ? ? ? ? Hagree].
  split; try done.
  intros ch t. rewrite Hagree. by apply in_tconns_ext.
Qed.

Lemma invariant_channels (ths : gmap string Thing.t) crm crm' trm :
  ChannelRepo.cconns crm' = ChannelRepo.cconns crm →
  (∀ i c, ChannelRepo.channels crm' !! i = Some c → Channel.ID c = i) →
  (∀ k, is_Some (ChannelRepo.channels crm !! k) →
        is_Some (ChannelRepo.channels crm' !! k)) →
  invariant ths crm trm → invariant ths crm' trm.
Proof.
  intros Hcc Hkeyed Hdom [? ? ? Hnamed Hone Hrec Hagree].
  split; try done.
  - by rewrite Hcc.
  - rewrite Hcc. exact Hone.
  - rewrite Hcc. intros t chans k c Ht Hk.
    destruct (Hrec _ _ _ _ Ht Hk). auto.
  - intros ch t. rewrite <- Hagree. unfold in_cconns. by rewrite Hcc.
Qed.

Lemma invariant_connect (ths : gmap string Thing.t) crm trm
    (chID thID : string) (ch : Channel.t) (th : Thing.t) :
  invariant ths crm trm →
  ChannelRepo.cconns crm !! thID = None →
  thID ≠ "" → Thing.ID th = thID →
  Channel.ID ch = chID → is_Some (ChannelRepo.channels crm !! chID) →
  invariant ths
    (ChannelRepo.set_cconns
       (<[thID := <[chID := ch]> ∅]> (ChannelRepo.cconns crm)) crm)
    (ThingRepo.consume trm (mkConnection chID th true)).
Proof.
  intros [? ? ? Hnamed Hone Hrec Hagree] Hnone Hne Hth Hch Hstored.
  split; try done; simpl.
  - by rewrite lookup_insert_ne.
  - intros t chans k1 k2 c1 c2. rewrite lookup_insert.
    destruct (decide (thID = t)) as [->|Ht]; [|apply Hone].
    intros [= <-]. rewrite !lookup_insert.
    repeat case_decide; rewrite ?lookup_empty; try done; congruence.
  - intros t chans k c. rewrite lookup_insert.
    destruct (decide (thID = t)) as [->|Ht]; [|apply Hrec].
    intros [= <-]. rewrite lookup_insert.
    case_decide as Hk; [|by rewrite lookup_empty].
    intros [= <-]. by subst.
  - intros c t. rewrite in_tconns_connect, <- Hagree, Hth.
    unfold in_cconns. simpl. rewrite lookup_insert.
    destruct (decide (thID = t)) as [->|Ht].
    + split.
      * intros (chans & x & [= <-] & Hx). rewrite lookup_insert in Hx.
        case_decide; [by left; subst | by rewrite lookup_empty in Hx].
      * intros [[-> _]|(chans & x & Hchans & _)]; [|congruence].
        eexists _, ch. split; [done |]. apply lookup_insert_eq.
    + split; [by right |]. by intros [[_ ->]|?].
Qed.

Lemma invariant_disconnect (ths : gmap string Thing.t) crm trm
    (chID thID : string) (chans : gmap string Channel.t) (c : Channel.t) :
  invariant ths crm trm →
  ChannelRepo.cconns crm !! thID = Some chans →
  chans !! chID = Some c →
  invariant ths
    (ChannelRepo.set_cconns
       (<[thID := delete chID chans]> (ChannelRepo.cconns crm)) crm)
    (ThingRepo.consume trm
       (mkConnection chID (Thing.with_ID thID Thing.zero) false)).
Proof.
  intros [? ? ? Hnamed Hone Hrec Hagree] Hentry Hc.
  assert (thID ≠ "") as Hne by (intros ->; congruence).
  split; try done; simpl.
  - by rewrite lookup_insert_ne.
  - intros t e k1 k2 c1 c2. rewrite lookup_insert.
    destruct (decide (thID = t)) as [->|Ht]; [|apply Hone].
    intros [= <-] [_ H1]%lookup_delete_Some [_ H2]%lookup_delete_Some.
    by apply (Hone _ _ _ _ _ _ Hentry H1 H2).
  - intros t e k x. rewrite lookup_insert.
    destruct (decide (thID = t)) as [->|Ht]; [|apply Hrec].
    intros [= <-] [_ Hk]%lookup_delete_Some. by apply (Hrec _ _ _ _ Hentry Hk).
  - intros ch t. rewrite in_tconns_disconnect by done. rewrite <- Hagree.
    unfold in_cconns. simpl. rewrite lookup_insert.
    destruct (decide (thID = t)) as [->|Ht].
    + split.
      * intros (e & x & [= <-] & [Hk Hx]%lookup_delete_Some).
        split; [by intros [-> _] | eauto].
      * intros (Hnot & e & x & He & Hx). rewrite Hentry in He.
        injection He as <-. eexists _, x. split; [done |].
        apply lookup_delete_Some. split; [|done]. intros ->. by apply Hnot.
    + split; [|by intros [_ ?]]. intros Hin. split; [|done].
      by intros [_ ->].
Qed.

Lemma invariant_remove (ths : gmap string Thing.t) crm trm (id : string) :
  invariant ths crm trm →
  invariant ths
    (ChannelRepo.mk (ChannelRepo.counter crm)
       (delete id (ChannelRepo.channels crm))
       (delete id <$> ChannelRepo.cconns crm))
    (ThingRepo.consume trm (removal_event id)).
Proof.
  intros [? ? Hkeyed Hnamed Hone Hrec Hagree].
  split; try done; simpl.
  - intros i c [_ Hi]%lookup_delete_Some. by apply Hkeyed.
  - by rewrite lookup_fmap, Hnamed.
  - intros t e k1 k2 c1 c2. rewrite lookup_fmap.
    destruct (ChannelRepo.cconns crm !! t) as [chans|] eqn:Ht; [|done].
    simpl. intros [= <-] [_ H1]%lookup_delete_Some [_ H2]%lookup_delete_Some.
    by apply (Hone _ _ _ _ _ _ Ht H1 H2).
  - intros t e k x. rewrite lookup_fmap.
    destruct (ChannelRepo.cconns crm !! t) as [chans|] eqn:Ht; [|done].
    simpl. intros [= <-] [Hne Hk]%lookup_delete_Some.
    destruct (Hrec _ _ _ _ Ht Hk) as [Hid Hst]. split; [done |].
    by rewrite lookup_delete_ne.
  - intros ch t. rewrite in_tconns_removal, <- Hagree.
    unfold in_cconns. simpl. rewrite lookup_fmap.
    destruct (ChannelRepo.cconns crm !! t) as [chans|] eqn:Ht; simpl.
    + split.
      * intros (e & x & [= <-] & [Hne Hx]%lookup_delete_Some).
        split; [done | eauto].
      * intros (Hne & e & x & [= <-] & Hx). eexists _, x.
        split; [done |]. by apply lookup_delete_Some.
    + split; [by intros (? & ? & ? & ?) | by intros (_ & ? & ? & ? & ?)].
Qed.

(** *** The loops keep the invariant *)

Lemma Thing_RetrieveByID_found trm (id : string) (th : Thing.t) :
  ThingRepo.RetrieveByID trm id = (th, None) →
  ∃ i, ThingRepo.things trm !! i = Some th ∧ Thing.ID th = id.
Proof.
  unfold ThingRepo.RetrieveByID.
  destruct (List.find _ _) as [[i x]|] eqn:Hfind; [|done].
  intros [= <-]. apply find_Some_elem in Hfind as [Hin Hid].
  exists i. split; [by apply elem_of_range | by apply bool_decide_eq_true in Hid].
Qed.

Lemma Channel_RetrieveByID_found crm (id : string) (ch : Channel.t) :
  ChannelRepo.RetrieveByID crm id = (ch, None) →
  ∃ i, ChannelRepo.channels crm !! i = Some ch ∧ Channel.ID ch = id.
Proof.
  unfold ChannelRepo.RetrieveByID.
  destruct (List.find _ _) as [[i x]|] eqn:Hfind; [|done].
  intros [= <-]. apply find_Some_elem in Hfind as [Hin Hid].
  exists i. split; [by apply elem_of_range | by apply bool_decide_eq_true in Hid].
Qed.

Lemma Connect_loop_invariant (thIDs : list string) trm crm received
    (chID : string) (ch : Channel.t) :
  Channel.ID ch = chID → is_Some (ChannelRepo.channels crm !! chID) →
  invariant (ThingRepo.things trm) crm received →
  invariant (ThingRepo.things trm)
    (fst (fst (ChannelRepo.Connect_loop trm crm chID ch thIDs)))
    (foldl ThingRepo.consume received
       (snd (fst (ChannelRepo.Connect_loop trm crm chID ch thIDs)))).
Proof.
  intros Hch. revert crm received.
  induction thIDs as [|thID thIDs IH]; intros crm received Hstored Hinv;
    cbn [ChannelRepo.Connect_loop]; [done |].
  destruct (ChannelRepo.cconns crm !! thID) as [chans|] eqn:Hentry; [done |].
  destruct (ThingRepo.RetrieveByID trm thID) as [th [e|]] eqn:Hth; [done |].
  apply Thing_RetrieveByID_found in Hth as (i & Hi & Hid).
  assert (i = thID) as -> by (by rewrite <- (things_keyed _ _ _ Hinv _ _ Hi)).
  assert (thID ≠ "") as Hne.
  { intros ->. by rewrite (things_named _ _ _ Hinv) in Hi. }
  cbn [default].
  pose proof (invariant_connect _ _ _ chID thID ch th Hinv Hentry Hne Hid Hch
                Hstored) as Hinv1.
  apply IH in Hinv1; [|done].
  by destruct (ChannelRepo.Connect_loop trm _ chID ch thIDs) as [[crm2 evs] err].
Qed.

Lemma Connect_invariant (thIDs : list string) trm crm received (chID : string) :
  invariant (ThingRepo.things trm) crm received →
  invariant (ThingRepo.things trm)
    (fst (fst (ChannelRepo.Connect trm crm chID thIDs)))
    (foldl ThingRepo.consume received
       (snd (fst (ChannelRepo.Connect trm crm chID thIDs)))).
Proof.
  intros Hinv. unfold ChannelRepo.Connect.
  destruct (ChannelRepo.RetrieveByID crm chID) as [ch [e|]] eqn:Hch; [done |].
  apply Channel_RetrieveByID_found in Hch as (i & Hi & Hid).
  apply Connect_loop_invariant; [done | | done].
  rewrite <- Hid, (channels_keyed _ _ _ Hinv _ _ Hi). by rewrite Hi.
Qed.

Lemma Disconnect_invariant (thIDs : list string)
    (ths : gmap string Thing.t) crm received (chID : string) :
  invariant ths crm received →
  invariant ths
    (fst (fst (ChannelRepo.Disconnect crm chID thIDs)))
    (foldl ThingRepo.consume received
       (snd (fst (ChannelRepo.Disconnect crm chID thIDs)))).
Proof.
  revert crm received.
  induction thIDs as [|thID thIDs IH]; intros crm received Hinv;
    cbn [ChannelRepo.Disconnect]; [done |].
  destruct (ChannelRepo.cconns crm !! thID) as [chans|] eqn:Hentry; [|done].
  destruct (chans !! chID) as [c|] eqn:Hc; [|done].
  specialize (IH _ _ (invariant_disconnect _ _ _ _ _ _ _ Hinv Hentry Hc)).
  by destruct (ChannelRepo.Disconnect _ chID thIDs) as [[crm2 evs] err].
Qed.

Lemma Remove_invariant (ids : list string)
    (ths : gmap string Thing.t) crm received :
  invariant ths crm received →
  invariant ths
    (fst (fst (ChannelRepo.Remove crm ids)))
    (foldl ThingRepo.consume received (snd (fst (ChannelRepo.Remove crm ids)))).
Proof.
  revert crm received.
  induction ids as [|id ids IH]; intros crm received Hinv;
    cbn [ChannelRepo.Remove]; [done |].
  destruct (ChannelRepo.channels crm !! id); [|done].
  specialize (IH _ _ (invariant_remove _ _ _ id Hinv)).
  by destruct (ChannelRepo.Remove _ ids) as [[crm2 evs] err].
Qed.

Lemma Channel_Save_invariant (chs : list Channel.t)
    (ths : gmap string Thing.t) crm received :
  invariant ths crm received →
  invariant ths (fst (ChannelRepo.Save crm chs)) received.
Proof.
  revert crm. induction chs as [|ch chs IH]; intros crm Hinv; [done |].
  rewrite ChannelFacts.Save_cons.
  assert (invariant ths (fst (ChannelRepo.Save_one crm ch)) received) as Hinv1.
  { apply (invariant_channels ths crm); [done | | | done]; simpl.
    - intros i c. rewrite lookup_insert. case_decide as Hi; [by intros [= <-] |].
      apply (channels_keyed _ _ _ Hinv).
    - intros k Hk. rewrite lookup_insert. by case_decide. }
  specialize (IH _ Hinv1).
  by destruct (ChannelRepo.Save _ chs) as [crm2 [out err]].
Qed.

Lemma Channel_Update_invariant (ch : Channel.t)
    (ths : gmap string Thing.t) crm received :
  invariant ths crm received →
  invariant ths (fst (ChannelRepo.Update crm ch)) received.
Proof.
  intros Hinv. unfold ChannelRepo.Update.
  destruct (ChannelRepo.channels crm !! Channel.ID ch) eqn:Hch; [|done].
  apply (invariant_channels ths crm); [done | | | done]; simpl.
  - intros i c. rewrite lookup_insert. case_decide as Hi; [by intros [= <-] |].
    apply (channels_keyed _ _ _ Hinv).
  - intros k Hk. rewrite lookup_insert. by case_decide.
Qed.

(** *** The calls on Things keep the empty identifier out of the table *)

Lemma Save_named (ths : list Thing.t) trm :
  ThingRepo.things trm !! "" = None →
  ThingRepo.things (fst (ThingRepo.Save trm ths)) !! "" = None
  ∧ ThingRepo.tconns (fst (ThingRepo.Save trm ths)) = ThingRepo.tconns trm.
Proof.
  revert trm. induction ths as [|T ths IH]; intros trm Hnamed; [done |].
  cbn [ThingRepo.Save].
  destruct (ThingRepo.Save_one trm T) as [[trm1 T']|e] eqn:E; [|done].
  assert (ThingRepo.things trm1 !! "" = None
          ∧ ThingRepo.tconns trm1 = ThingRepo.tconns trm) as [Hn1 Ht1].
  { unfold ThingRepo.Save_one in E. destruct (ThingRepo.scan_key _ _); [done |].
    injection E as <- <-. simpl. split; [|done].
    rewrite lookup_insert_ne; [done |].
    case_decide; simpl; [apply ThingMore.Sprintf_03d_nonempty | done]. }
  destruct (IH trm1 Hn1) as [Hn2 Ht2].
  destruct (ThingRepo.Save trm1 ths) as [trm2 [out err]]. simpl in *.
  split; congruence.
Qed.

Lemma Update_named (th : Thing.t) trm :
  ThingRepo.things trm !! "" = None →
  ThingRepo.things (fst (ThingRepo.Update trm th)) !! "" = None.
Proof.
  intros Hnamed. unfold ThingRepo.Update.
  destruct (ThingRepo.things trm !! Thing.ID th) eqn:Hth; [|done]. simpl.
  rewrite lookup_insert_ne; [done |]. intros Hid. congruence.
Qed.

Lemma UpdateKey_named (id val : string) trm :
  ThingRepo.things trm !! "" = None →
  ThingRepo.things (fst (ThingRepo.UpdateKey trm id val)) !! "" = None.
Proof.
  intros Hnamed. unfold ThingRepo.UpdateKey.
  destruct (ThingRepo.scan_key _ _); [done |].
  destruct (ThingRepo.things trm !! id) eqn:Hth; [|done]. simpl.
  rewrite lookup_insert_ne; [done |]. intros ->. congruence.
Qed.

Lemma Remove_named (ids : list string) trm :
  ThingRepo.things trm !! "" = None →
  ThingRepo.things (fst (ThingRepo.Remove trm ids)) !! "" = None.
Proof.
  revert trm. induction ids as [|id ids IH]; intros trm Hnamed; simpl; [done |].
  destruct (ThingRepo.things trm !! id); [|done].
  apply IH. simpl. by rewrite lookup_delete_None; right.
Qed.

(** *** Every reachable state is consistent *)

Lemma drained_with_crepo s crm (sent : list Connection) :
  drained (with_crepo crm sent s) = foldl ThingRepo.consume (drained s) sent.
Proof. unfold drained, with_crepo. simpl. by rewrite foldl_app. Qed.

Lemma consistent_with_trepo s trm :
  ThingRepo.keyed_by_ID (ThingRepo.things trm) →
  ThingRepo.things trm !! "" = None →
  ThingRepo.tconns trm = ThingRepo.tconns (trepo s) →
  consistent s → consistent (with_trepo trm s).
Proof.
  intros Hkeyed Hnamed Heq Hs. unfold consistent, drained. simpl.
  eapply invariant_things; [done | done | | exact Hs].
  by apply tconns_drain_ext.
Qed.

Lemma step_consistent s (a : action) : consistent s → consistent (step s a).
Proof.
  intros Hs.
  pose proof (things_keyed _ _ _ Hs) as Hkeyed.
  pose proof (things_named _ _ _ Hs) as Hnamed.
  destruct a as [ths|th|id val|ids|chs|ch|ids|chID thIDs|chID thIDs|];
    cbn [step].
  - apply consistent_with_trepo;
      [by apply ThingFacts.Save_keyed_by_ID | by apply Save_named
      | by apply Save_named | done].
  - apply consistent_with_trepo;
      [by apply ThingFacts.Update_keyed_by_ID | by apply Update_named
      | | done].
    unfold ThingRepo.Update.
    by destruct (ThingRepo.things (trepo s) !! Thing.ID th).
  - apply consistent_with_trepo;
      [by apply ThingFacts.UpdateKey_keyed_by_ID | by apply UpdateKey_named
      | | done].
    unfold ThingRepo.UpdateKey. destruct (ThingRepo.scan_key _ _); [done |].
    by destruct (ThingRepo.things (trepo s) !! id).
  - apply consistent_with_trepo;
      [by apply ThingFacts.Remove_keyed_by_ID | by apply Remove_named
      | apply ThingMore.Remove_frame | done].
  - unfold consistent. rewrite drained_with_crepo. simpl.
    by apply Channel_Save_invariant.
  - unfold consistent. rewrite drained_with_crepo. simpl.
    by apply Channel_Update_invariant.
  - unfold consistent. rewrite drained_with_crepo. simpl.
    by apply Remove_invariant.
  - unfold consistent. rewrite drained_with_crepo. simpl.
    by apply Connect_invariant.
  - unfold consistent. rewrite drained_with_crepo. simpl.
    by apply Disconnect_invariant.
  - destruct (bridge s) as [|conn rest] eqn:Hb; [done |].
    unfold consistent, drained in *. rewrite Hb in Hs. simpl in *.
    by rewrite ThingFacts.things_consume.
Qed.

Lemma init_consistent : consistent init.
Proof.
  split; try done; simpl.
  intros ch t. unfold in_cconns, in_tconns. simpl. split.
  - intros (? & ? & Hl & _). by rewrite lookup_empty in Hl.
  - intros (? & ? & Hl & _). by rewrite lookup_empty in Hl.
Qed.

Lemma reachable_consistent s : reachable s → consistent s.
Proof.
  intros [acts ->]. unfold run.
  assert (∀ s0, consistent s0 → consistent (foldl step s0 acts)) as Hall.
  { induction acts as [|a acts IH]; intros s0 Hs0; simpl; [done |].
    by apply IH, step_consistent. }
  apply Hall, init_consistent.
Qed.

Lemma system_reachable_step s (a : action) : reachable s → reachable (step s a).
Proof.
  intros [acts ->]. exists (acts ++ [a])%list. unfold run. by rewrite foldl_app.
Qed.

Lemma HasThingByID_in_cconns crm (chID thID : string) :
  ChannelRepo.HasThingByID crm chID thID = None ↔ in_cconns crm chID thID.
Proof.
  unfold ChannelRepo.HasThingByID, in_cconns.
  destruct (ChannelRepo.cconns crm !! thID) as [chans|];
    [|split; [done | by intros (? & ? & ? & ?)]].
  destruct (chans !! chID) as [c|] eqn:Hc.
  - split; [eauto | done].
  - split; [done |]. intros (? & ? & [= <-] & ?). congruence.
Qed.

(** *** What holds of every reachable state *)

(** X16. The two connection indexes converge: in every state the two
    repositories reach, [HasThingByID] succeeds for a Channel and a Thing
    exactly when the thing-side index will hold the pair once the events
    still on the way are received; when none is on the way, exactly when
    the thing-side index holds the pair. *)
Theorem connection_indexes_converge s :
  reachable s →
  (∀ ch t, ChannelRepo.HasThingByID (crepo s) ch t = None
           ↔ in_tconns (drained s) ch t)
  ∧ (bridge s = [] →
     ∀ ch t, ChannelRepo.HasThingByID (crepo s) ch t = None
             ↔ in_tconns (trepo s) ch t).
Proof.
  intros Hs%reachable_consistent.
  assert (∀ ch t, ChannelRepo.HasThingByID (crepo s) ch t = None
                  ↔ in_tconns (drained s) ch t) as Hall.
  { intros ch t. rewrite HasThingByID_in_cconns.
    apply (indexes_agree _ _ _ Hs). }
  split; [exact Hall |]. intros Hb ch t. rewrite Hall.
  unfold drained. by rewrite Hb.
Qed.

Lemma one_channel_aux s (ch1 ch2 t : string) :
  consistent s →
  ChannelRepo.HasThingByID (crepo s) ch1 t = None →
  ChannelRepo.HasThingByID (crepo s) ch2 t = None →
  ch1 = ch2.
Proof.
  intros Hs (chans & c1 & Ht & H1)%HasThingByID_in_cconns
    (chans' & c2 & Ht' & H2)%HasThingByID_in_cconns.
  rewrite Ht in Ht'. injection Ht' as <-.
  exact (one_channel _ _ _ Hs _ _ _ _ _ _ Ht H1 H2).
Qed.

(** X17. A Thing is connected to one Channel at most: in every state the two
    repositories reach, if [HasThingByID] succeeds for a Thing with two
    Channels, they are the same Channel. *)
Theorem one_channel_per_thing s (ch1 ch2 t : string) :
  reachable s →
  ChannelRepo.HasThingByID (crepo s) ch1 t = None →
  ChannelRepo.HasThingByID (crepo s) ch2 t = None →
  ch1 = ch2.
Proof.
  intros Hs%reachable_consistent. by apply one_channel_aux.
Qed.

Lemma Channel_RetrieveByID_keyed crm (id : string) :
  (∀ i c, ChannelRepo.channels crm !! i = Some c → Channel.ID c = i) →
  ChannelRepo.RetrieveByID crm id
  = match ChannelRepo.channels crm !! id with
    | Some ch => (ch, None)
    | None => (Channel.zero, Some ErrNotFound)
    end.
Proof.
  intros Hkeyed. unfold ChannelRepo.RetrieveByID.
  rewrite <- (find_by_ID_lookup Channel.ID (ChannelRepo.channels crm) id Hkeyed).
  by destruct (List.find _ _).
Qed.

(** X18. In every state the two repositories reach, [RetrieveByID] of the
    Channel repository returns the Channel stored under the identifier,
    and fails with [ErrNotFound], returning the zero Channel, exactly
    when nothing is stored under it. *)
Theorem Channel_RetrieveByID_is_lookup s (id : string) :
  reachable s →
  ChannelRepo.RetrieveByID (crepo s) id
  = match ChannelRepo.channels (crepo s) !! id with
    | Some ch => (ch, None)
    | None => (Channel.zero, Some ErrNotFound)
    end.
Proof.
  intros Hs%reachable_consistent.
  apply Channel_RetrieveByID_keyed, (channels_keyed _ _ _ Hs).
Qed.

(** X19. [Update] of a Channel whose identifier is not stored fails with
    [ErrNotFound] and changes nothing. Otherwise it succeeds, the record
    is then the one [RetrieveByID] returns, and neither the counter nor
    the connection index has changed: [HasThingByID] answers as before. *)
Theorem Channel_Update_then_RetrieveByID s (ch : Channel.t) :
  reachable s →
  (ChannelRepo.channels (crepo s) !! Channel.ID ch = None →
   ChannelRepo.Update (crepo s) ch = (crepo s, Some ErrNotFound))
  ∧ (is_Some (ChannelRepo.channels (crepo s) !! Channel.ID ch) →
     snd (ChannelRepo.Update (crepo s) ch) = None
     ∧ ChannelRepo.RetrieveByID (fst (ChannelRepo.Update (crepo s) ch))
         (Channel.ID ch) = (ch, None)
     ∧ ChannelRepo.counter (fst (ChannelRepo.Update (crepo s) ch))
       = ChannelRepo.counter (crepo s)
     ∧ ∀ ch' t,
         ChannelRepo.HasThingByID (fst (ChannelRepo.Update (crepo s) ch)) ch' t
         = ChannelRepo.HasThingByID (crepo s) ch' t).
Proof.
  intros Hs.
  pose proof (reachable_consistent _ (system_reachable_step s (ChannelUpdate ch) Hs))
    as Hs'.
  pose proof (channels_keyed _ _ _ Hs') as Hkeyed. simpl in Hkeyed.
  rewrite Channel_RetrieveByID_keyed by done. clear Hs' Hkeyed.
  unfold ChannelRepo.Update. split.
  - by intros ->.
  - intros [x ->]. simpl. by rewrite lookup_insert_eq.
Qed.

(** *** The Channel of a Thing *)

Lemma recorded_iff s (t : string) (c : Channel.t) :
  consistent s →
  existsb (λ co, bool_decide (Channel.ID c = Channel.ID co))
    (snd <$> range (default ∅ (ChannelRepo.cconns (crepo s) !! t))) = true
  ↔ in_cconns (crepo s) (Channel.ID c) t.
Proof.
  intros Hs. rewrite existsb_exists. unfold in_cconns. split.
  - intros (co & Hco & Hid). apply bool_decide_eq_true in Hid.
    apply list_elem_of_In, PagingMore.elem_of_entry_values in Hco
      as (chans & k & Ht & Hk).
    destruct (recorded_stored _ _ _ Hs _ _ _ _ Ht Hk) as [Hidk _].
    exists chans, co. split; [done |]. by rewrite Hid, Hidk.
  - intros (chans & co & Ht & Hk).
    destruct (recorded_stored _ _ _ Hs _ _ _ _ Ht Hk) as [Hidk _].
    exists co. split; [|by apply bool_decide_eq_true].
    apply list_elem_of_In, PagingMore.elem_of_entry_values. eauto.
Qed.

(** X20. In every state the two repositories reach: when [HasThingByID]
    succeeds for a Channel and a Thing, the Channel is stored, and
    [RetrieveByThing] returns for the Thing the record the table holds
    for that Channel, as [RetrieveByID] does for the Channel. Conversely
    the Channel [RetrieveByThing] returns passes [HasThingByID], and
    [RetrieveByThing] fails ([ErrNotFound]) exactly when [HasThingByID]
    fails for every Channel. *)
Theorem RetrieveByThing_is_the_connected_channel s (t : string) :
  reachable s →
  (∀ ch, ChannelRepo.HasThingByID (crepo s) ch t = None →
     ∃ c, ChannelRepo.channels (crepo s) !! ch = Some c
          ∧ ChannelRepo.RetrieveByID (crepo s) ch = (c, None)
          ∧ ChannelRepo.RetrieveByThing (crepo s) t = (c, None))
  ∧ (∀ c, ChannelRepo.RetrieveByThing (crepo s) t = (c, None) →
       ChannelRepo.HasThingByID (crepo s) (Channel.ID c) t = None)
  ∧ (snd (ChannelRepo.RetrieveByThing (crepo s) t) = Some ErrNotFound
     ↔ ∀ ch, ChannelRepo.HasThingByID (crepo s) ch t ≠ None).
Proof.
  intros Hreach. pose proof (reachable_consistent _ Hreach) as Hs.
  pose proof (channels_keyed _ _ _ Hs) as Hkeyed.
  assert (∀ c, ChannelRepo.RetrieveByThing (crepo s) t = (c, None) →
            ChannelRepo.HasThingByID (crepo s) (Channel.ID c) t = None) as Hback.
  { intros c. unfold ChannelRepo.RetrieveByThing.
    destruct (List.find _ _) as [[i x]|] eqn:Hfind; [|done].
    intros [= <-]. apply find_Some_elem in Hfind as [_ Hrec]. simpl in Hrec.
    by apply HasThingByID_in_cconns, recorded_iff. }
  assert (∀ ch, ChannelRepo.HasThingByID (crepo s) ch t = None →
            ∃ c, ChannelRepo.channels (crepo s) !! ch = Some c
                 ∧ ChannelRepo.RetrieveByID (crepo s) ch = (c, None)
                 ∧ ChannelRepo.RetrieveByThing (crepo s) t = (c, None)) as Hforth.
  { intros ch Hhas. pose proof Hhas as Hin%HasThingByID_in_cconns.
    destruct Hin as (chans & co & Ht & Hk).
    destruct (recorded_stored _ _ _ Hs _ _ _ _ Ht Hk) as [Hid [c Hc]].
    exists c. split; [done |]. split.
    { rewrite Channel_RetrieveByID_keyed by done. by rewrite Hc. }
    assert (in_cconns (crepo s) (Channel.ID c) t) as Hinc.
    { rewrite (Hkeyed _ _ Hc). by exists chans, co. }
    unfold ChannelRepo.RetrieveByThing.
    destruct (List.find _ _) as [[i x]|] eqn:Hfind.
    - apply find_Some_elem in Hfind as [Hx%elem_of_range Hrec].
      simpl in Hrec. apply recorded_iff in Hrec; [|done].
      apply HasThingByID_in_cconns in Hrec.
      assert (Channel.ID x = ch) as Hxch
        by exact (one_channel_aux s _ _ _ Hs Hrec Hhas).
      rewrite (Hkeyed _ _ Hx) in Hxch. subst i. simpl. congruence.
    - rewrite find_None_iff in Hfind.
      specialize (Hfind (ch, c) (proj2 (elem_of_range _ _ _) Hc)).
      simpl in Hfind. apply (proj2 (recorded_iff s t c Hs)) in Hinc.
      congruence. }
  split; [exact Hforth |]. split; [exact Hback |]. split.
  - intros Hnf ch Hhas. destruct (Hforth ch Hhas) as (c & _ & _ & HR).
    rewrite HR in Hnf. done.
  - intros Hnone. unfold ChannelRepo.RetrieveByThing in *.
    destruct (List.find _ _) as [[i x]|] eqn:Hfind; [|done].
    destruct (Hnone (Channel.ID x)). by apply (Hback x).
Qed.

(** *** Connections by key, and all connections *)

(** X21. In every state the two repositories reach,
    [RetrieveConnByThingKey] ends in success, [ErrNotFound] or
    [ErrAuthorization]. It fails with [ErrNotFound] exactly when no stored
    Thing holds the key. When it succeeds it returns a Thing that holds
    the key with a Channel that passes [HasThingByID] for it; when it
    fails with [ErrAuthorization], some Thing holds the key and
    [HasThingByID] fails for it with every Channel. So when the key is
    held, the call fails with [ErrAuthorization] if no holder has a
    Channel, and succeeds if every holder has one; this settles the
    outcome whenever one Thing only holds the key. *)
Theorem RetrieveConnByThingKey_outcome s (token : string) :
  reachable s →
  let r := ChannelRepo.RetrieveConnByThingKey (trepo s) (crepo s) token in
  (snd r = None ∨ snd r = Some ErrNotFound ∨ snd r = Some ErrAuthorization)
  ∧ (snd r = Some ErrNotFound ↔ ∀ tid, ¬ holds_key (trepo s) token tid)
  ∧ (∀ conn, r = (conn, None) →
       holds_key (trepo s) token (ChannelRepo.ThingID conn)
       ∧ ChannelRepo.HasThingByID (crepo s) (ChannelRepo.ChannelID conn)
           (ChannelRepo.ThingID conn) = None)
  ∧ (snd r = Some ErrAuthorization →
       ∃ tid, holds_key (trepo s) token tid
              ∧ ∀ ch, ChannelRepo.HasThingByID (crepo s) ch tid ≠ None)
  ∧ ((∃ tid, holds_key (trepo s) token tid) →
     (∀ tid, holds_key (trepo s) token tid →
             ∀ ch, ChannelRepo.HasThingByID (crepo s) ch tid ≠ None) →
     snd r = Some ErrAuthorization)
  ∧ ((∃ tid, holds_key (trepo s) token tid) →
     (∀ tid, holds_key (trepo s) token tid →
             ∃ ch, ChannelRepo.HasThingByID (crepo s) ch tid = None) →
     snd r = None).
Proof.
  intros Hs%reachable_consistent. cbv zeta.
  pose proof (things_keyed _ _ _ Hs) as Hkeyed.
  unfold ChannelRepo.RetrieveConnByThingKey, ThingRepo.RetrieveByKey.
  destruct (ThingRepo.scan_key (ThingRepo.things (trepo s)) token)
    as [b|] eqn:Hscan.
  2:{ rewrite ThingFacts.scan_key_None in Hscan.
      assert (∀ tid, ¬ holds_key (trepo s) token tid) as Hnone.
      { intros tid (th & Hth & Hk). by destruct (Hscan _ _ Hth). }
      simpl. split; [by right; left |]. split; [done |]. split; [done |].
      split; [done |].
      split; intros [tid Htid]; by destruct (Hnone tid). }
  apply ThingFacts.scan_key_Some in Hscan as (i & Hi & Hk).
  assert (holds_key (trepo s) token (Thing.ID b)) as Hholds.
  { exists b. by rewrite (Hkeyed _ _ Hi). }
  assert (¬ ∀ tid, ¬ holds_key (trepo s) token tid) as Hheld.
  { intros Hnone. by destruct (Hnone (Thing.ID b)). }
  destruct (ChannelRepo.cconns (crepo s) !! Thing.ID b) as [chans|] eqn:Hentry.
  2:{ assert (∀ ch, ChannelRepo.HasThingByID (crepo s) ch (Thing.ID b) ≠ None)
        as Hfail.
      { intros ch. unfold ChannelRepo.HasThingByID. by rewrite Hentry. }
      simpl. split; [by right; right |]. split; [done |]. split; [done |].
      split; [eauto |]. split; [done |].
      intros _ Hall. destruct (Hall _ Hholds) as [ch Hch].
      by destruct (Hfail ch). }
  destruct (decide (size chans = 0%nat)) as [Hsize|Hsize].
  { assert (∀ ch, ChannelRepo.HasThingByID (crepo s) ch (Thing.ID b) ≠ None)
      as Hfail.
    { intros ch. unfold ChannelRepo.HasThingByID. rewrite Hentry.
      apply map_size_empty_iff in Hsize. subst chans.
      by rewrite lookup_empty. }
    simpl. split; [by right; right |]. split; [done |]. split; [done |].
    split; [eauto |]. split; [done |].
    intros _ Hall. destruct (Hall _ Hholds) as [ch Hch].
    by destruct (Hfail ch). }
  destruct (range chans) as [|[k v] rest] eqn:Hrange.
  { exfalso. apply Hsize. by rewrite <- (length_range chans), Hrange. }
  assert (chans !! k = Some v) as Hkv.
  { apply elem_of_range. rewrite Hrange. left. }
  destruct (recorded_stored _ _ _ Hs _ _ _ _ Hentry Hkv) as [Hid _].
  assert (ChannelRepo.HasThingByID (crepo s) (Channel.ID v) (Thing.ID b) = None)
    as Hhas.
  { unfold ChannelRepo.HasThingByID. by rewrite Hentry, Hid, Hkv. }
  simpl. split; [by left |]. split; [done |].
  split; [by intros conn [= <-] |]. split; [done |]. split; [|done].
  intros _ Hall. by destruct (Hall _ Hholds (Channel.ID v)).
Qed.

(** X22. In every state the two repositories reach, [RetrieveAllConnections]
    never fails, and lists the pair of a Thing and a Channel exactly when
    [HasThingByID] succeeds for them. *)
Theorem RetrieveAllConnections_iff_HasThingByID s (ch t : string) :
  reachable s →
  snd (ChannelRepo.RetrieveAllConnections (crepo s)) = None
  ∧ (ChannelRepo.mkConnectionIDs t ch
       ∈ fst (ChannelRepo.RetrieveAllConnections (crepo s))
     ↔ ChannelRepo.HasThingByID (crepo s) ch t = None).
Proof.
  intros Hs%reachable_consistent. split; [done |].
  unfold ChannelRepo.RetrieveAllConnections. simpl.
  rewrite list_elem_of_bind, HasThingByID_in_cconns. unfold in_cconns. split.
  - intros ([t' chans] & Hin & Ht%elem_of_range). simpl in Hin.
    apply list_elem_of_fmap in Hin as (v & [= -> ->] & Hv).
    apply elem_of_range_values in Hv as [k Hk].
    destruct (recorded_stored _ _ _ Hs _ _ _ _ Ht Hk) as [Hid _].
    exists chans, v. by rewrite Hid.
  - intros (chans & v & Ht & Hv).
    destruct (recorded_stored _ _ _ Hs _ _ _ _ Ht Hv) as [Hid _].
    exists (t, chans). split; [|by apply elem_of_range]. simpl.
    apply list_elem_of_fmap. exists v. split; [by rewrite Hid |].
    apply elem_of_range_values. eauto.
Qed.
End WithRange.
End SystemFacts.

(** ** More on the Channel cache *)

Module ChannelCacheMore.
Import ChannelCache.

(** X23. After [Connect] of a Channel with a Thing, [HasThing] holds for that
    Channel with that Thing only. After [Disconnect] or [Remove] of a
    Channel, [HasThing] holds for it with the empty Thing identifier
    only, which is how a Channel that is not in the cache reads. None of
    the three changes what [HasThing] answers for another Channel. *)
Theorem HasThing_after (ccm : channelCacheMock) (ch ch' t t' : string) :
  (HasThing (fst (Connect ccm ch t)) ch t' = true ↔ t' = t)
  ∧ (HasThing (fst (Disconnect ccm ch t)) ch t' = true ↔ t' = "")
  ∧ (HasThing (fst (Remove ccm ch)) ch t' = true ↔ t' = "")
  ∧ (ch' ≠ ch →
     HasThing (fst (Connect ccm ch t)) ch' t' = HasThing ccm ch' t'
     ∧ HasThing (fst (Disconnect ccm ch t)) ch' t' = HasThing ccm ch' t'
     ∧ HasThing (fst (Remove ccm ch)) ch' t' = HasThing ccm ch' t').
Proof.
  unfold HasThing. simpl.
  rewrite lookup_insert_eq, lookup_delete_eq. simpl.
  rewrite !bool_decide_eq_true.
  split; [done |]. split; [done |]. split; [done |].
  intros Hne. by rewrite lookup_insert_ne, lookup_delete_ne.
Qed.
End ChannelCacheMore.

(** ** The further properties on concrete repositories *)

Module Instances.

Lemma linked_reachable : System.reachable Examples.linked.
Proof. by eexists. Qed.

Lemma RetrieveByID_is_lookup_witness :
  ThingRepo.RetrieveByID Examples.one_thing "001"
  = match ThingRepo.things Examples.one_thing !! "001" with
    | Some th => (th, None)
    | None => (Thing.zero, Some ErrNotFound)
    end.
Proof.
  apply (ThingMore.RetrieveByID_is_lookup Examples.one_thing "001").
  by eexists.
Defined.

Lemma Save_outcome_witness :
  ThingRepo.tconns (fst (ThingRepo.Save Examples.one_thing Examples.twins))
  = ThingRepo.tconns Examples.one_thing
  ∧ (snd (ThingRepo.Save Examples.one_thing Examples.twins)
     = ([], Some ErrConflict)
     ∨ (snd (snd (ThingRepo.Save Examples.one_thing Examples.twins)) = None
        ∧ length (fst (snd (ThingRepo.Save Examples.one_thing Examples.twins)))
          = length Examples.twins
        ∧ Forall (λ th, Thing.ID th ≠ "")
            (fst (snd (ThingRepo.Save Examples.one_thing Examples.twins)))
        ∧ ThingRepo.counter
            (fst (ThingRepo.Save Examples.one_thing Examples.twins))
          = u64 (ThingRepo.counter Examples.one_thing
                 + Z.of_nat (length Examples.twins)))).
Proof.
  apply (ThingMore.Save_outcome Examples.one_thing Examples.twins).
  vm_compute. split; first [reflexivity | discriminate].
Defined.

Lemma Save_then_retrieve_witness :
  ∃ T' : Thing.t,
    T' = Thing.mk "001" "" "" "k" None
    ∧ ThingRepo.Save ThingRepo.NewThingRepository [Examples.keyed "k"]
      = (ThingRepo.mk 1 ∅ (<[Thing.ID T' := T']> ∅), ([T'], None))
    ∧ ThingRepo.RetrieveByID
        (fst (ThingRepo.Save ThingRepo.NewThingRepository [Examples.keyed "k"]))
        (Thing.ID T') = (T', None)
    ∧ ThingRepo.RetrieveByKey
        (fst (ThingRepo.Save ThingRepo.NewThingRepository [Examples.keyed "k"]))
        "k" = (Thing.ID T', None).
Proof.
  apply (ThingMore.Save_then_retrieve ThingRepo.NewThingRepository
           (Examples.keyed "k")).
  - by exists [].
  - intros i th Hi. simpl in Hi. by rewrite lookup_empty in Hi.
Defined.

Lemma Update_then_RetrieveByID_witness :
  let th := Thing.mk "001" "g" "renamed" "a" None in
  (ThingRepo.things Examples.one_thing !! Thing.ID th = None →
   ThingRepo.Update Examples.one_thing th
   = (Examples.one_thing, Some ErrNotFound))
  ∧ (is_Some (ThingRepo.things Examples.one_thing !! Thing.ID th) →
     snd (ThingRepo.Update Examples.one_thing th) = None
     ∧ ThingRepo.RetrieveByID (fst (ThingRepo.Update Examples.one_thing th))
         (Thing.ID th) = (th, None)
     ∧ ThingRepo.counter (fst (ThingRepo.Update Examples.one_thing th))
       = ThingRepo.counter Examples.one_thing
     ∧ ∀ j, j ≠ Thing.ID th →
         ThingRepo.RetrieveByID (fst (ThingRepo.Update Examples.one_thing th)) j
         = ThingRepo.RetrieveByID Examples.one_thing j).
Proof.
  apply (ThingMore.Update_then_RetrieveByID Examples.one_thing).
  by eexists.
Defined.

Lemma Remove_then_RetrieveByID_witness :
  let r := ThingRepo.Remove Examples.three_things ["003"; "001"] in
  ThingRepo.counter (fst r) = ThingRepo.counter Examples.three_things
  ∧ (∀ id, id ∈ ["003"; "001"] →
       ThingRepo.RetrieveByID (fst r) id = (Thing.zero, Some ErrNotFound))
  ∧ (∀ id, id ∉ ["003"; "001"] →
       ThingRepo.RetrieveByID (fst r) id
       = ThingRepo.RetrieveByID Examples.three_things id).
Proof.
  apply (ThingMore.Remove_then_RetrieveByID Examples.three_things
           ["003"; "001"]).
  - by eexists.
  - vm_compute. reflexivity.
Defined.

Lemma RetrieveByKey_owner_witness :
  (snd (ThingRepo.RetrieveByKey Examples.one_thing "a") = Some ErrNotFound
   ↔ ∀ i th, ThingRepo.things Examples.one_thing !! i = Some th →
             Thing.Key th ≠ "a")
  ∧ (snd (ThingRepo.RetrieveByKey Examples.one_thing "a") = None
     ∨ snd (ThingRepo.RetrieveByKey Examples.one_thing "a") = Some ErrNotFound)
  ∧ (∀ id, ThingRepo.RetrieveByKey Examples.one_thing "a" = (id, None) →
       ∃ th, ThingRepo.things Examples.one_thing !! id = Some th
             ∧ Thing.Key th = "a").
Proof.
  apply (ThingMore.RetrieveByKey_owner Examples.one_thing "a").
  by eexists.
Defined.

Lemma RetrieveByAdmin_window_witness :
  let pm := Examples.page 1 1 in
  let trm := Examples.three_things in
  let crm := Examples.one_channel in
  let tp := ThingRepo.RetrieveByAdmin trm pm in
  let cp := ChannelRepo.RetrieveByAdmin crm pm in
  (snd tp = None
   ∧ ThingsPage_meta (fst tp)
     = mkPageMetadata (ThingRepo.counter trm) (Offset pm) (Limit pm) "" "" ""
   ∧ (∃ l, l ≡ₚ snd <$> map_to_list (ThingRepo.things trm)
           ∧ Things (fst tp)
             = take (Z.to_nat (Limit pm)) (drop (Z.to_nat (Offset pm)) l))
   ∧ length (Things (fst tp))
     = (Z.to_nat (Limit pm)
        `min` (size (ThingRepo.things trm) - Z.to_nat (Offset pm)))%nat
   ∧ (∀ v, v ∈ Things (fst tp) → ∃ i, ThingRepo.things trm !! i = Some v)
   ∧ (Offset pm = 0 → Z.of_nat (size (ThingRepo.things trm)) ≤ Limit pm →
      Things (fst tp) ≡ₚ snd <$> map_to_list (ThingRepo.things trm)))
  ∧ (snd cp = None
     ∧ ChannelsPage_meta (fst cp)
       = mkPageMetadata (ChannelRepo.counter crm) (Offset pm) (Limit pm) "" "" ""
     ∧ (∃ l, l ≡ₚ snd <$> map_to_list (ChannelRepo.channels crm)
             ∧ Channels (fst cp)
               = take (Z.to_nat (Limit pm)) (drop (Z.to_nat (Offset pm)) l))
     ∧ length (Channels (fst cp))
       = (Z.to_nat (Limit pm)
          `min` (size (ChannelRepo.channels crm) - Z.to_nat (Offset pm)))%nat
     ∧ (∀ c, c ∈ Channels (fst cp) →
          ∃ i, ChannelRepo.channels crm !! i = Some c)
     ∧ (Offset pm = 0 → Z.of_nat (size (ChannelRepo.channels crm)) ≤ Limit pm →
        Channels (fst cp) ≡ₚ snd <$> map_to_list (ChannelRepo.channels crm))).
Proof.
  apply (PagingMore.RetrieveByAdmin_window Examples.three_things
           Examples.one_channel (Examples.page 1 1));
    vm_compute; first [reflexivity | discriminate].
Defined.

(** The page of offset 1 and limit 1 of the table of three holds one
    Thing, and the page of offset 0 and limit 5 holds the three. *)
Example RetrieveByAdmin_sizes :
  length (Things (fst (ThingRepo.RetrieveByAdmin Examples.three_things
                         (Examples.page 1 1)))) = 1%nat
  ∧ length (Things (fst (ThingRepo.RetrieveByAdmin Examples.three_things
                           (Examples.page 0 5)))) = 3%nat
  ∧ Total (ThingsPage_meta (fst (ThingRepo.RetrieveByAdmin
                                   Examples.three_things (Examples.page 0 5))))
    = 3.
Proof. vm_compute. repeat split. Qed.

Lemma RetrieveByChannel_members_witness :
  let trm := System.trepo Examples.linked in
  let pm := Examples.page 0 1 in
  let r := ThingRepo.RetrieveByChannel SpecModel.ParseID SpecModel.sortThings
             trm "001" pm in
  snd r = None
  ∧ Total (ThingsPage_meta (fst r)) = ThingRepo.counter trm
  ∧ (∀ v : Thing.t,
       v ∈ Things (fst r)
       ↔ (∃ ths k, ThingRepo.tconns trm !! "001" = Some ths ∧ ths !! k = Some v)
         ∧ (Limit pm = 0
            ∨ u64 (Offset pm + 1) ≤ SpecModel.ParseID (Thing.ID v)
              < u64 (u64 (Offset pm + 1) + Limit pm)))
  ∧ (0 ≤ Offset pm → Offset pm + Limit pm + 1 < 2 ^ 64 →
     ∀ v : Thing.t,
       v ∈ Things (fst r)
       ↔ (∃ ths k, ThingRepo.tconns trm !! "001" = Some ths ∧ ths !! k = Some v)
         ∧ (Limit pm = 0
            ∨ Offset pm + 1 ≤ SpecModel.ParseID (Thing.ID v)
              ≤ Offset pm + Limit pm)).
Proof.
  apply (PagingMore.RetrieveByChannel_members SpecModel.ParseID
           SpecModel.sortThings PagingFacts.model_sortThings_perm
           (System.trepo Examples.linked) "001" (Examples.page 0 1)).
  vm_compute. discriminate.
Defined.

(** The Channel [001] of the linked state has the Thing [001], of ordinal
    1: it is on the page of offset 0 and limit 1, whose window is the
    ordinal 1, on the page of limit zero, which has no window, and not on
    the page of offset 1 and limit 1, whose window is the ordinal 2. *)
Example RetrieveByChannel_after_Connect :
  let page_of pm :=
    Things (fst (ThingRepo.RetrieveByChannel SpecModel.ParseID
                   SpecModel.sortThings (System.trepo Examples.linked) "001"
                   pm)) in
  page_of (Examples.page 0 1) = [Thing.mk "001" "" "" "a" None]
  ∧ page_of (Examples.page 0 0) = [Thing.mk "001" "" "" "a" None]
  ∧ page_of (Examples.page 1 1) = [].
Proof. vm_compute. repeat split. Qed.

(** When [offset + 1] overflows the window starts again at zero: with the
    offset [2^64 - 1] and the limit 2 it is the ordinals 0 and 1, and a
    connected Thing whose identifier carries no number, of ordinal 0, is
    on the page. *)
Example RetrieveByChannel_wraps :
  SpecModel.ParseID "x" = 0
  ∧ Things (fst (ThingRepo.RetrieveByChannel SpecModel.ParseID
                   SpecModel.sortThings (System.trepo Examples.linked_unnumbered)
                   "001" (Examples.page (2 ^ 64 - 1) 2)))
    = [Thing.mk "x" "" "" "a" None].
Proof. vm_compute. split; reflexivity. Qed.

Lemma RetrieveAll_snapshot_witness :
  snd (ThingRepo.RetrieveAll Examples.three_things) = None
  ∧ length (fst (ThingRepo.RetrieveAll Examples.three_things))
    = size (ThingRepo.things Examples.three_things)
  ∧ NoDup (fst (ThingRepo.RetrieveAll Examples.three_things))
  ∧ (∀ v : Thing.t,
       v ∈ fst (ThingRepo.RetrieveAll Examples.three_things)
       ↔ ThingRepo.things Examples.three_things !! Thing.ID v = Some v).
Proof.
  apply (PagingMore.RetrieveAll_snapshot Examples.three_things).
  by eexists.
Defined.

Lemma Connect_HasThingByID_Disconnect_witness :
  let c := ChannelRepo.Connect Examples.one_thing Examples.one_channel
             "001" ["001"] in
  let d := ChannelRepo.Disconnect (fst (fst c)) "001" ["001"] in
  snd c = None
  ∧ snd (fst c)
    = [mkConnection "001"
         (fst (ThingRepo.RetrieveByID Examples.one_thing "001")) true]
  ∧ ChannelRepo.HasThingByID (fst (fst c)) "001" "001" = None
  ∧ (∀ ch' th', th' ≠ "001" →
       ChannelRepo.HasThingByID (fst (fst c)) ch' th'
       = ChannelRepo.HasThingByID Examples.one_channel ch' th')
  ∧ snd d = None
  ∧ snd (fst d) = [mkConnection "001" (Thing.with_ID "001" Thing.zero) false]
  ∧ ChannelRepo.HasThingByID (fst (fst d)) "001" "001" = Some ErrAuthorization
  ∧ snd (ChannelRepo.Disconnect (fst (fst d)) "001" ["001"]) = Some ErrNotFound.
Proof.
  apply (ChannelMore.Connect_HasThingByID_Disconnect Examples.one_thing
           Examples.one_channel "001" "001"); vm_compute; reflexivity.
Defined.

Lemma connection_indexes_converge_witness :
  (∀ ch t, ChannelRepo.HasThingByID (System.crepo Examples.linked) ch t = None
           ↔ System.in_tconns (System.drained Examples.linked) ch t)
  ∧ (System.bridge Examples.linked = [] →
     ∀ ch t, ChannelRepo.HasThingByID (System.crepo Examples.linked) ch t = None
             ↔ System.in_tconns (System.trepo Examples.linked) ch t).
Proof.
  apply (SystemFacts.connection_indexes_converge Examples.linked).
  exact linked_reachable.
Defined.

(** In the linked state nothing is on the way, and both indexes hold the
    pair of the Channel [001] and the Thing [001]. *)
Example linked_pair :
  System.bridge Examples.linked = []
  ∧ ChannelRepo.HasThingByID (System.crepo Examples.linked) "001" "001" = None
  ∧ ThingRepo.tconns (System.trepo Examples.linked) !! "001"
    = Some {[ "001" := Thing.mk "001" "" "" "a" None ]}.
Proof. vm_compute. repeat split. Qed.

Lemma one_channel_per_thing_witness : "001" = "001".
Proof.
  apply (SystemFacts.one_channel_per_thing Examples.linked "001" "001" "001").
  - exact linked_reachable.
  - vm_compute. reflexivity.
  - vm_compute. reflexivity.
Defined.

Lemma Channel_RetrieveByID_is_lookup_witness :
  ChannelRepo.RetrieveByID (System.crepo Examples.linked) "001"
  = match ChannelRepo.channels (System.crepo Examples.linked) !! "001" with
    | Some ch => (ch, None)
    | None => (Channel.zero, Some ErrNotFound)
    end.
Proof.
  apply (SystemFacts.Channel_RetrieveByID_is_lookup Examples.linked "001").
  exact linked_reachable.
Defined.

Lemma Channel_Update_then_RetrieveByID_witness :
  let ch := Channel.mk "001" "g" "renamed" None in
  let crm := System.crepo Examples.linked in
  (ChannelRepo.channels crm !! Channel.ID ch = None →
   ChannelRepo.Update crm ch = (crm, Some ErrNotFound))
  ∧ (is_Some (ChannelRepo.channels crm !! Channel.ID ch) →
     snd (ChannelRepo.Update crm ch) = None
     ∧ ChannelRepo.RetrieveByID (fst (ChannelRepo.Update crm ch))
         (Channel.ID ch) = (ch, None)
     ∧ ChannelRepo.counter (fst (ChannelRepo.Update crm ch))
       = ChannelRepo.counter crm
     ∧ ∀ ch' t,
         ChannelRepo.HasThingByID (fst (ChannelRepo.Update crm ch)) ch' t
         = ChannelRepo.HasThingByID crm ch' t).
Proof.
  apply (SystemFacts.Channel_Update_then_RetrieveByID Examples.linked).
  exact linked_reachable.
Defined.

Lemma RetrieveByThing_is_the_connected_channel_witness :
  let crm := System.crepo Examples.linked in
  (∀ ch, ChannelRepo.HasThingByID crm ch "001" = None →
     ∃ c, ChannelRepo.channels crm !! ch = Some c
          ∧ ChannelRepo.RetrieveByID crm ch = (c, None)
          ∧ ChannelRepo.RetrieveByThing crm "001" = (c, None))
  ∧ (∀ c, ChannelRepo.RetrieveByThing crm "001" = (c, None) →
       ChannelRepo.HasThingByID crm (Channel.ID c) "001" = None)
  ∧ (snd (ChannelRepo.RetrieveByThing crm "001") = Some ErrNotFound
     ↔ ∀ ch, ChannelRepo.HasThingByID crm ch "001" ≠ None).
Proof.
  apply (SystemFacts.RetrieveByThing_is_the_connected_channel
           Examples.linked "001").
  exact linked_reachable.
Defined.

Example RetrieveByThing_linked :
  ChannelRepo.RetrieveByThing (System.crepo Examples.linked) "001"
  = (Channel.mk "001" "g" "" None, None)
  ∧ ChannelRepo.RetrieveByThing (System.crepo Examples.linked) "002"
    = (Channel.zero, Some ErrNotFound).
Proof. vm_compute. split; reflexivity. Qed.

Lemma RetrieveConnByThingKey_outcome_witness :
  let trm := System.trepo Examples.linked in
  let crm := System.crepo Examples.linked in
  let r := ChannelRepo.RetrieveConnByThingKey trm crm "a" in
  (snd r = None ∨ snd r = Some ErrNotFound ∨ snd r = Some ErrAuthorization)
  ∧ (snd r = Some ErrNotFound ↔ ∀ tid, ¬ System.holds_key trm "a" tid)
  ∧ (∀ conn, r = (conn, None) →
       System.holds_key trm "a" (ChannelRepo.ThingID conn)
       ∧ ChannelRepo.HasThingByID crm (ChannelRepo.ChannelID conn)
           (ChannelRepo.ThingID conn) = None)
  ∧ (snd r = Some ErrAuthorization →
       ∃ tid, System.holds_key trm "a" tid
              ∧ ∀ ch, ChannelRepo.HasThingByID crm ch tid ≠ None)
  ∧ ((∃ tid, System.holds_key trm "a" tid) →
     (∀ tid, System.holds_key trm "a" tid →
             ∀ ch, ChannelRepo.HasThingByID crm ch tid ≠ None) →
     snd r = Some ErrAuthorization)
  ∧ ((∃ tid, System.holds_key trm "a" tid) →
     (∀ tid, System.holds_key trm "a" tid →
             ∃ ch, ChannelRepo.HasThingByID crm ch tid = None) →
     snd r = None).
Proof.
  apply (SystemFacts.RetrieveConnByThingKey_outcome Examples.linked "a").
  exact linked_reachable.
Defined.

Example RetrieveConnByThingKey_linked :
  ChannelRepo.RetrieveConnByThingKey (System.trepo Examples.linked)
    (System.crepo Examples.linked) "a"
  = (ChannelRepo.mkConnectionIDs "001" "001", None)
  ∧ snd (ChannelRepo.RetrieveConnByThingKey (System.trepo Examples.linked)
           (System.crepo Examples.linked) "z") = Some ErrNotFound.
Proof. vm_compute. split; reflexivity. Qed.

Lemma RetrieveAllConnections_iff_HasThingByID_witness :
  snd (ChannelRepo.RetrieveAllConnections (System.crepo Examples.linked)) = None
  ∧ (ChannelRepo.mkConnectionIDs "001" "001"
       ∈ fst (ChannelRepo.RetrieveAllConnections (System.crepo Examples.linked))
     ↔ ChannelRepo.HasThingByID (System.crepo Examples.linked) "001" "001"
       = None).
Proof.
  apply (SystemFacts.RetrieveAllConnections_iff_HasThingByID Examples.linked
           "001" "001").
  exact linked_reachable.
Defined.
End Instances.
